(** * sqlxx: a shallow embedding of the query builder, the value model,
      the cursor protocol and the three drivers' statements and transactions.

    Conventions of the embedding.
    - A [std::string] is a [list ascii]: a byte sequence that may hold any
      byte, the NUL byte included.
    - A [char const*] is a [char_ptr]: either [nullptr] or [ptr mem], the
      bytes stored from the pointee onwards.  Every C routine that reads a
      C string ([strlen], [strpbrk], [operator<<(char const* )], the
      [text[i]] loop) stops at the first NUL; memory that ends without one
      reads as if a NUL followed.
    - A [std::stringstream] that is only appended to and read back with
      [str()] is the text written so far.
    - [std::int64_t] and [std::uint64_t] are [Z], with the wrap-around of a
      conversion written out where the source converts; [double] is
      Rocq's binary64 [float].
    - Native client libraries (libmysqlclient, sqlite3, libpq) are not part
      of the repository: what a native call returns is an input of the
      model. *)

From Stdlib Require Import List String Ascii ZArith Bool Lia Arith.
From Stdlib Require Import Decimal DecimalString Hexadecimal HexadecimalString.
From Stdlib Require Import PrimFloat Uint63.
From Stdlib Require DecimalNat DecimalPos DecimalN DecimalZ FloatOps SpecFloat.
From stdpp Require Import base gmap.
Import ListNotations.

Local Open Scope char_scope.
Local Open Scope list_scope.

(** ** Bytes and C strings *)

(** A string literal as the byte sequence it denotes. *)
Definition txt (s : string) : list ascii := list_ascii_of_string s.

Definition NUL : ascii := "000".

Definition is_nul (c : ascii) : bool := Ascii.eqb c NUL.

Inductive char_ptr : Type :=
| nullptr
| ptr (mem : list ascii).

(** The C string stored at [mem]: the bytes before the first NUL. *)
Fixpoint c_text (mem : list ascii) : list ascii :=
  match mem with
  | [] => []
  | c :: mem' => if is_nul c then [] else c :: c_text mem'
  end.

(** [std::string::c_str()]: the bytes of the string, NUL-terminated. *)
Definition c_str (s : list ascii) : char_ptr := ptr (s ++ [NUL]).

(** [strpbrk(s, accept)]: the suffix of [s] that starts at its first byte
    found in [accept], or [None] (a null pointer) when the C string has
    none. *)
Fixpoint strpbrk (s accept : list ascii) : option (list ascii) :=
  match s with
  | [] => None
  | c :: s' =>
      if is_nul c then None
      else if existsb (Ascii.eqb c) accept then Some s
      else strpbrk s' accept
  end.

(** Character classes of the "C" locale. *)
Definition in_range (lo hi : nat) (c : ascii) : bool :=
  (lo <=? nat_of_ascii c)%nat && (nat_of_ascii c <=? hi)%nat.

Definition is_digit (c : ascii) : bool := in_range 48 57 c.
Definition is_upper (c : ascii) : bool := in_range 65 90 c.
Definition is_lower (c : ascii) : bool := in_range 97 122 c.
Definition is_alnum (c : ascii) : bool := is_digit c || is_upper c || is_lower c.

Definition tolower (c : ascii) : ascii :=
  if is_upper c then ascii_of_nat (nat_of_ascii c + 32) else c.

(** [isspace] of the "C" locale: space, and \t \n \v \f \r. *)
Definition is_space (c : ascii) : bool :=
  Ascii.eqb c " " || in_range 9 13 c.

(** ** Value model (sqlxx.h) *)

Inductive sql_type : Type :=
| SQL_INVALID
| SQL_NULL
| SQL_INTEGER
| SQL_FLOAT
| SQL_TEXT
| SQL_BLOB.

Inductive result_type : Type :=
| SQL_OK
| SQL_IMPROPER
| SQL_NO_MEMORY
| SQL_SERVER_LOST
| SQL_UNKNOWN_ERROR.

Definition sql_type_eqb (a b : sql_type) : bool :=
  match a, b with
  | SQL_INVALID, SQL_INVALID | SQL_NULL, SQL_NULL | SQL_INTEGER, SQL_INTEGER
  | SQL_FLOAT, SQL_FLOAT | SQL_TEXT, SQL_TEXT | SQL_BLOB, SQL_BLOB => true
  | _, _ => false
  end.

Definition result_type_eqb (a b : result_type) : bool :=
  match a, b with
  | SQL_OK, SQL_OK | SQL_IMPROPER, SQL_IMPROPER | SQL_NO_MEMORY, SQL_NO_MEMORY
  | SQL_SERVER_LOST, SQL_SERVER_LOST | SQL_UNKNOWN_ERROR, SQL_UNKNOWN_ERROR => true
  | _, _ => false
  end.

Definition two64 : Z := (2 ^ 64)%Z.
Definition two63 : Z := (2 ^ 63)%Z.

(** Conversion to [std::uint64_t]: reduction modulo 2^64. *)
Definition to_uint64 (z : Z) : Z := (z mod two64)%Z.

(** Conversion of a [std::uint64_t] to [std::int64_t]: two's complement. *)
Definition to_int64 (z : Z) : Z :=
  let u := (z mod two64)%Z in
  if (u <? two63)%Z then u else (u - two64)%Z.

(** [double(i)] for a [std::int64_t]: the nearest binary64. *)
Definition double_of_int64 (i : Z) : float :=
  if (i =? - two63)%Z then (-0x1p63)%float
  else if (i <? 0)%Z then PrimFloat.opp (PrimFloat.of_uint63 (Uint63.of_Z (- i)))
  else PrimFloat.of_uint63 (Uint63.of_Z i).

(** [struct field_type]: the five private members. *)
Record field_type : Type := mk_field {
  int_   : Z;            (* int data *)
  float_ : float;        (* float data *)
  str_   : list ascii;   (* string (blob) data *)
  name_  : list ascii;   (* field (col) name *)
  type_  : sql_type      (* sql type *)
}.

(** [field_type()], the default constructor: the member initialisers. *)
Definition field_default : field_type :=
  mk_field 0%Z 0%float [] [] SQL_INVALID.

(** [field_type(std::string const& name)]: a NULL field. *)
Definition field_null (name : list ascii) : field_type :=
  mk_field 0%Z 0%float [] name SQL_NULL.

(** [field_type(std::int64_t i, std::string const& name)]. *)
Definition field_int (i : Z) (name : list ascii) : field_type :=
  mk_field i (double_of_int64 i) [] name SQL_INTEGER.

(** [field_type(std::string const& s, std::string const& name)]. *)
Definition field_text (s name : list ascii) : field_type :=
  mk_field 0%Z 0%float s name SQL_TEXT.

(** [field_type(blob const& b, std::string const& name)]. *)
Definition field_blob (b name : list ascii) : field_type :=
  mk_field 0%Z 0%float b name SQL_BLOB.

(** [std::int64_t(d)] for a [double]: truncation toward zero; outside the
    range of [std::int64_t], and for NaN, the value x86-64 gives,
    [-2^63]. *)
Definition int64_of_double (d : float) : Z :=
  match FloatOps.Prim2SF d with
  | SpecFloat.S754_zero _ => 0%Z
  | SpecFloat.S754_finite s m e =>
      let a := if (0 <=? e)%Z then (Zpos m * 2 ^ e)%Z else (Zpos m / 2 ^ (- e))%Z in
      let v := if s then (- a)%Z else a in
      if (- two63 <=? v)%Z && (v <? two63)%Z then v else (- two63)%Z
  | _ => (- two63)%Z
  end.

(** [field_type(double d, std::string const& name)]. *)
Definition field_double (d : float) (name : list ascii) : field_type :=
  mk_field (int64_of_double d) d [] name SQL_FLOAT.

(** [std::string::operator==]: same length and same bytes. *)
Fixpoint text_eqb (a b : list ascii) : bool :=
  match a, b with
  | [], [] => true
  | x :: a', y :: b' => Ascii.eqb x y && text_eqb a' b'
  | _, _ => false
  end.

(** [std::numeric_limits<double>::epsilon()]. *)
Definition double_epsilon : float := (0x1p-52)%float.

(** [field_type::operator==(field_type const&)]. *)
Definition field_eqb (a f : field_type) : bool :=
  sql_type_eqb (type_ a) (type_ f) && (int_ a =? int_ f)%Z
  && text_eqb (str_ a) (str_ f) && text_eqb (name_ a) (name_ f)
  && PrimFloat.ltb (PrimFloat.abs (PrimFloat.sub (float_ a) (float_ f))) double_epsilon.

(** [int(v) & 0xFF] for a [char] [v] ([char] taken as signed; the mask
    gives the same byte either way). *)
Definition char_to_int (v : ascii) : Z :=
  let n := Z.of_nat (nat_of_ascii v) in
  if (n <? 128)%Z then n else (n - 256)%Z.

(** [s << std::hex << n] for a non-negative [int]: lower-case digits, no
    padding (the stream's width is 0, so the fill character is unused). *)
Definition fmt_hex (n : Z) : list ascii :=
  txt (HexadecimalString.NilZero.string_of_uint (N.to_hex_uint (Z.to_N n))).

(** [s << int_]: decimal with a minus sign. *)
Definition fmt_int64 (i : Z) : list ascii :=
  txt (DecimalString.NilZero.string_of_int (Z.to_int i)).

(** [field_type::toString()].  The rendering of a [double] by the
    stream, [s << float_], is the C++ library's: it is the parameter
    [fmt_double]. *)
Definition toString (fmt_double : float -> list ascii) (f : field_type) : list ascii :=
  match type_ f with
  | SQL_TEXT => str_ f
  | SQL_INTEGER => fmt_int64 (int_ f)
  | SQL_FLOAT => fmt_double (float_ f)
  | SQL_BLOB =>
      txt "\x" ++ flat_map (fun v => fmt_hex (Z.land (char_to_int v) 255)) (str_ f)
  | SQL_NULL => txt "NULL"
  | SQL_INVALID => txt "INVALID"
  end.

(** The textual form the specification gives for a blob: [\x] and two
    lower-case hexadecimal digits per byte. *)
Definition hex_digit (n : nat) : ascii :=
  nth n (txt "0123456789abcdef") "0".

Definition hex_byte (v : ascii) : list ascii :=
  [hex_digit (nat_of_ascii v / 16); hex_digit (nat_of_ascii v mod 16)].

Definition blob_hex_spec (b : list ascii) : list ascii :=
  txt "\x" ++ flat_map hex_byte b.

(** ** Rows (sqlxx.h, class row) *)

Definition row : Type := list field_type.

(** [invalid<field_type>()]: one function-local static, default
    constructed; every failed lookup returns a reference to it. *)
Definition invalid : field_type := field_default.

(** What a [const_reference] returned by [row::operator[]] refers to:
    the element at a position of the row, or the shared invalid object. *)
Inductive field_ref : Type :=
| ref_elem (i : nat)
| ref_invalid.

(** Reading through the reference.  [None] is an access outside the
    vector's storage. *)
Definition deref (r : row) (p : field_ref) : option field_type :=
  match p with
  | ref_elem i => nth_error r i
  | ref_invalid => Some invalid
  end.

(** [row::operator[](size_type idx)]. *)
Definition row_at (r : row) (idx : nat) : field_ref :=
  if (idx <? length r)%nat then ref_elem idx else ref_invalid.

(** [it->name() == colname]: a [std::string] against a C string. *)
Definition name_is (f : field_type) (colname : char_ptr) : bool :=
  match colname with
  | nullptr => false
  | ptr mem => text_eqb (name_ f) (c_text mem)
  end.

(** The loop of [row::operator[](char const* colname)], the iterator
    standing at position [i]. *)
Fixpoint row_scan (r : row) (colname : char_ptr) (i : nat) : field_ref :=
  match r with
  | [] => ref_invalid
  | f :: r' => if name_is f colname then ref_elem i else row_scan r' colname (S i)
  end.

(** [row::operator[](char const* colname)]. *)
Definition row_named (r : row) (colname : char_ptr) : field_ref :=
  row_scan r colname 0.

(** [row::operator==]: equal sizes and [std::equal] with
    [field_type::operator==]. *)
Fixpoint row_equal (a b : row) : bool :=
  match a, b with
  | [], _ => true
  | x :: a', y :: b' => field_eqb x y && row_equal a' b'
  | _ :: _, [] => false
  end.

Definition row_eqb (a b : row) : bool :=
  (length a =? length b)%nat && row_equal a b.

(** ** Statements, iterators and cursors (sqlxx.h) *)

(** [class statement]: the five pure virtual members.  [S] is the state
    of an implementation; [next] and [first] change it. *)
Class statement (S : Type) : Type := {
  next : S -> row * S;
  first : S -> S;
  result : S -> result_type;
  last_id : S -> Z;
  affected_rows : S -> Z
}.

(** The statements alive in the program, by address.  A
    [std::shared_ptr<statement>] or [std::weak_ptr<statement>] is
    [Some l] for the object at [l] and [None] when empty;
    [weak_ptr::lock()] succeeds when the object is still in the store. *)
Abbreviation store := (gmap nat).

Record iterator : Type := mk_iterator {
  row_ : row;
  it_stmt_ : option nat
}.

(** [iterator::next()]. *)
Definition iterator_next {S} `{statement S} (it : iterator) (h : store S)
  : iterator * store S :=
  match it_stmt_ it with
  | Some l =>
      match h !! l with
      | Some s => let '(r, s') := next s in
                  (mk_iterator r (it_stmt_ it), <[l := s']> h)
      | None => (it, h)
      end
  | None => (it, h)
  end.

(** [iterator(std::weak_ptr<statement> stmt)]: [row_] starts empty and
    the constructor pulls once. *)
Definition iterator_ctor {S} `{statement S} (stmt : option nat) (h : store S)
  : iterator * store S :=
  iterator_next (mk_iterator [] stmt) h.

(** [iterator::operator==]: the rows only. *)
Definition iterator_eqb (a q : iterator) : bool := row_eqb (row_ a) (row_ q).

Record cursor : Type := mk_cursor { cur_stmt_ : option nat }.

(** [cursor::begin()].  [None] is the call [stmt_->first()] through a
    pointer that owns no statement. *)
Definition cursor_begin {S} `{statement S} (c : cursor) (h : store S)
  : option (iterator * store S) :=
  match cur_stmt_ c with
  | Some l =>
      match h !! l with
      | Some s => Some (iterator_ctor (cur_stmt_ c) (<[l := first s]> h))
      | None => None
      end
  | None => None
  end.

(** [cursor::end()]: an iterator over an empty [shared_ptr]. *)
Definition cursor_end {S} `{statement S} (c : cursor) (h : store S)
  : iterator * store S :=
  iterator_ctor None h.





(** [cursor]'s destructor: the cursor holds the only [shared_ptr], the
    iterators only weak ones, so the statement goes with the cursor. *)
Definition cursor_dtor {S} (c : cursor) (h : store S) : store S :=
  match cur_stmt_ c with
  | Some l => delete l h
  | None => h
  end.

(** ** Results (sqlxx.h, class result) *)

Definition result_set : Type := list row.

(** [invalid<row>()]: the default-constructed, empty row. *)
Definition invalid_row : row := [].

(** [result::operator[](size_type idx)]. *)
Definition result_at (res : result_set) (idx : nat) : row :=
  if (idx <? length res)%nat then nth idx res invalid_row else invalid_row.

(** [result::operator+=(row const&)]: [push_back]. *)
Definition result_add (res : result_set) (r : row) : result_set := res ++ [r].

(** [std::for_each(first, last, [&result](sqlxx::row& row) { result += row; })]:
    the loop [for (; first != last; ++first) f( *first)].  It need not
    end; [fuel] bounds the number of tests of its condition. *)
Fixpoint for_each_collect {S} `{statement S} (fuel : nat) (first_ last_ : iterator)
    (res : result_set) (h : store S) : option (result_set * store S) :=
  match fuel with
  | O => None
  | S fuel' =>
      if iterator_eqb first_ last_ then Some (res, h)
      else
        let '(it', h') := iterator_next first_ h in
        for_each_collect fuel' it' last_ (result_add res (row_ first_)) h'
  end.

(** [std::for_each(cursor.begin(), cursor.end(), ...)] into an empty
    result, as the test program does. *)
Definition collect {S} `{statement S} (fuel : nat) (c : cursor) (h : store S)
  : option (result_set * store S) :=
  match cursor_begin c h with
  | Some (b, h1) =>
      let '(e, h2) := cursor_end c h1 in
      for_each_collect fuel b e [] h2
  | None => None
  end.

(** ** The query builder (sqlxx.h, class query) *)

Record query : Type := mk_query {
  query_ : list ascii;        (* std::stringstream query_ *)
  bind_  : list field_type    (* std::vector<field_type> bind_ *)
}.

(** The members as the constructor finds them. *)
Definition query_init : query := mk_query [] [].

Definition quote : ascii := "'".
Definition backslash : ascii := "\".

(** The loop [for (size_t i = 0; text[i]; ++i)] of
    [operator<<(char const* )], writing to the stream [out]. *)
Fixpoint escape_loop (text out : list ascii) : list ascii :=
  match text with
  | [] => out
  | c :: text' =>
      if is_nul c then out
      else
        let out1 := out ++ [c] in
        let out2 := if Ascii.eqb c quote then out1 ++ [quote] else out1 in
        let out3 := if Ascii.eqb c backslash then out2 ++ [backslash] else out2 in
        escape_loop text' out3
  end.

(** [query& operator<<(char const* text)]. *)
Definition shl_text (q : query) (text : char_ptr) : query :=
  match text with
  | nullptr => q
  | ptr mem =>
      if is_nul (hd NUL mem) then q
      else
        match strpbrk mem [quote; backslash] with
        | None => mk_query (query_ q ++ c_text mem) (bind_ q)
        | Some _ => mk_query (escape_loop mem (query_ q)) (bind_ q)
        end
  end.

(** [query(std::string const& str = {})]: [( *this) << str.c_str()]. *)
Definition query_ctor (str : list ascii) : query :=
  shl_text query_init (c_str str).

(** [bind_.emplace_back(...)], the common end of every [bind] overload,
    given the field the overload constructs. *)
Definition bind (q : query) (f : field_type) : query :=
  mk_query (query_ q) (bind_ q ++ [f]).

(** [bind(std::string const& param, int i)]. *)
Definition bind_int (q : query) (param : list ascii) (i : Z) : query :=
  bind q (field_int i param).

(** [bind(std::string const& param, T&& t)] at [T = std::string]. *)
Definition bind_string (q : query) (param s : list ascii) : query :=
  bind q (field_text s param).

(** [l1] is a prefix of [l2]. *)
Fixpoint prefixb (l1 l2 : list ascii) : bool :=
  match l1, l2 with
  | [], _ => true
  | x :: l1', y :: l2' => Ascii.eqb x y && prefixb l1' l2'
  | _ :: _, [] => false
  end.

(** [q.find(pat)]: the position of the first occurrence, [None] for
    [npos]. *)
Fixpoint find (q pat : list ascii) : option nat :=
  if prefixb pat q then Some 0%nat
  else match q with
       | [] => None
       | _ :: q' => option_map S (find q' pat)
       end.

(** [q.replace(pos, len, s)]. *)
Definition replace (q : list ascii) (pos len : nat) (s : list ascii) : list ascii :=
  firstn pos q ++ s ++ skipn (pos + len) q.

(** [r << i]: the decimal digits of a [size_t]. *)
Definition digits (i : nat) : list ascii :=
  txt (DecimalString.NilZero.string_of_uint (Nat.to_uint i)).

(** The C string in [buf] after [r << '{' << i++ << '}'].  The stream
    [r] writes into [buf] (libstdc++ honours [pubsetbuf] on a string
    buffer), [buf] starts zeroed, [r.seekp(0)] rewinds before the next
    write, and the text for [i + 1] is never shorter than the one for [i],
    so no stale byte is left between the closing brace and the NUL. *)
Definition placeholder (i : nat) : list ascii :=
  "{" :: digits i ++ ["}"].

(** [while ((pos = q.find(buf)) != q.npos) q.replace(pos, strlen(buf), s);]
    The loop need not end; [fuel] bounds the number of tests of its
    condition and [None] is "still running". *)
Fixpoint replace_while (fuel : nat) (buf s q : list ascii) : option (list ascii) :=
  match fuel with
  | O => None
  | S fuel' =>
      match find q buf with
      | None => Some q
      | Some pos => replace_while fuel' buf s (replace q pos (length buf) s)
      end
  end.

(** [for (auto const& s : str) { ... }] with the counter [i]. *)
Fixpoint format_loop (fuel : nat) (str : list (list ascii)) (i : nat) (q : list ascii)
  : option (list ascii) :=
  match str with
  | [] => Some q
  | s :: str' =>
      match replace_while fuel (placeholder i) s q with
      | Some q' => format_loop fuel str' (S i) q'
      | None => None
      end
  end.

(** [query& operator<<(format str)]: the stream is emptied, the text
    rewritten and written back. *)
Definition shl_format (fuel : nat) (q : query) (str : list (list ascii)) : option query :=
  match format_loop fuel str 0 (query_ q) with
  | Some q' => Some (mk_query q' (bind_ q))
  | None => None
  end.

(** [virtual cursor execute_impl(char const* query,
    std::vector<field_type> bind) = 0]: what a driver supplies.  [C] is
    whatever the call returns. *)
Class driver (C : Type) : Type := {
  execute_impl : char_ptr -> list field_type -> C
}.

(** [cursor execute()]: [bind_] is moved into the by-value parameter and
    is left empty; [query_.str({})] empties the text. *)
Definition execute {C} `{driver C} (q : query) : C * query :=
  (execute_impl (c_str (query_ q)) (bind_ q), mk_query [] []).

(** The appends a caller can chain on a builder. *)
Inductive append : Type :=
| app_text (text : char_ptr)
| app_format (str : list (list ascii))
| app_bind (f : field_type).

Definition do_append (fuel : nat) (q : query) (a : append) : option query :=
  match a with
  | app_text text => Some (shl_text q text)
  | app_format str => shl_format fuel q str
  | app_bind f => Some (bind q f)
  end.

Fixpoint do_appends (fuel : nat) (q : query) (l : list append) : option query :=
  match l with
  | [] => Some q
  | a :: l' =>
      match do_append fuel q a with
      | Some q' => do_appends fuel q' l'
      | None => None
      end
  end.

(** *** The escaping and the substitution as the specification words them *)

(** Quote and backslash doubled, every other byte kept. *)
Definition escape (s : list ascii) : list ascii :=
  flat_map (fun c => if Ascii.eqb c quote || Ascii.eqb c backslash then [c; c] else [c]) s.

(** One left-to-right pass over a text.  [m q] tells whether a pattern
    starts at the head of [q]: the replacement and the number of bytes the
    pattern takes after its first.  [n] bounds the length of the text. *)
Fixpoint rewrite_pass (n : nat) (m : list ascii -> option (list ascii * nat))
    (q : list ascii) : list ascii :=
  match n with
  | O => q
  | S n' =>
      match q with
      | [] => []
      | c :: q' =>
          match m q with
          | Some (s, len) => s ++ rewrite_pass n' m (skipn len q')
          | None => c :: rewrite_pass n' m q'
          end
      end
  end.

(** The name whose placeholder starts at the head of [q], among the
    names [names] numbered from [i]. *)
Fixpoint match_placeholder (names : list (list ascii)) (i : nat) (q : list ascii)
  : option (list ascii * nat) :=
  match names with
  | [] => None
  | s :: names' =>
      if prefixb (placeholder i) q then Some (s, length (digits i ++ ["}"]))
      else match_placeholder names' (S i) q
  end.

Definition rewrite_all (m : list ascii -> option (list ascii * nat))
    (q : list ascii) : list ascii :=
  rewrite_pass (length q) m q.

(** Every placeholder [{0}] .. [{N-1}] of [q] replaced by its name, the
    rest of [q] copied. *)
Definition expand (names : list (list ascii)) (q : list ascii) : list ascii :=
  rewrite_all (match_placeholder names 0) q.

(** A name that the substitution handles as the specification says: no
    brace in it, and some byte that is not a decimal digit. *)
Definition name_ok (s : list ascii) : bool :=
  forallb (fun c => negb (Ascii.eqb c "{" || Ascii.eqb c "}")) s
  && existsb (fun c => negb (is_digit c)) s.

(** ** Result-producing queries (sqlxx.h, query_has_results) *)

(** The part of the ECMAScript grammar that the five patterns use. *)
Inductive regex : Type :=
| re_eps                         (* the empty pattern *)
| re_bnd                         (* \b *)
| re_chr (c : ascii)             (* one character *)
| re_star_not (c : ascii)        (* [^c]* *)
| re_seq (r1 r2 : regex)         (* r1 r2 *)
| re_group (r : regex)           (* (r) *)
| re_neg_look (r : regex).       (* (?!r) *)

(** [\w]: alphanumeric or underscore. *)
Definition is_word (c : ascii) : bool := is_alnum c || Ascii.eqb c "_".

Definition word_before (prev : option ascii) : bool :=
  match prev with Some c => is_word c | None => false end.

Definition word_after (inp : list ascii) : bool :=
  match inp with c :: _ => is_word c | [] => false end.

(** Comparison under [icase]: both sides through [tolower]. *)
Definition ieq (a b : ascii) : bool := Ascii.eqb (tolower a) (tolower b).

(** Backtracking matcher.  [prev] is the character before the current
    position, [inp] the input from the current position on, and [k] the
    rest of the match. *)
Fixpoint re_match (r : regex) (prev : option ascii) (inp : list ascii)
    (k : option ascii -> list ascii -> bool) : bool :=
  match r with
  | re_eps => k prev inp
  | re_bnd => xorb (word_before prev) (word_after inp) && k prev inp
  | re_chr c =>
      match inp with
      | x :: inp' => ieq x c && k (Some x) inp'
      | [] => false
      end
  | re_star_not c =>
      (fix star (prev : option ascii) (inp : list ascii) : bool :=
         match inp with
         | x :: inp' => (negb (ieq x c) && star (Some x) inp') || k prev inp
         | [] => k prev inp
         end) prev inp
  | re_seq r1 r2 => re_match r1 prev inp (fun p i => re_match r2 p i k)
  | re_group r => re_match r prev inp k
  | re_neg_look r => negb (re_match r prev inp (fun _ _ => true)) && k prev inp
  end.

(** A match that starts at the current position. *)
Definition re_match_here (r : regex) (prev : option ascii) (inp : list ascii) : bool :=
  re_match r prev inp (fun _ _ => true).

(** [std::regex_search]: a match that starts anywhere. *)
Fixpoint re_search_from (r : regex) (prev : option ascii) (inp : list ascii) : bool :=
  re_match_here r prev inp
  || match inp with
     | [] => false
     | c :: inp' => re_search_from r (Some c) inp'
     end.

Definition regex_search (query : list ascii) (r : regex) : bool :=
  re_search_from r None (c_text query).

(** A run of literal characters. *)
Definition re_lit (s : string) : regex :=
  fold_right (fun c r => re_seq (re_chr c) r) re_eps (txt s).

(** [\b(KEYWORD)\b]. *)
Definition re_keyword (kw : string) : regex :=
  re_seq re_bnd (re_seq (re_group (re_lit kw)) re_bnd).

(** [(?![^\(]*\))]. *)
Definition re_not_closing : regex :=
  re_neg_look (re_seq (re_star_not "(") (re_chr ")")).

Definition expect_results : list regex :=
  [ re_keyword "DESC";
    re_keyword "SHOW";
    re_keyword "EXPLAIN";
    re_keyword "DESCRIBE";
    re_seq (re_keyword "SELECT") re_not_closing ].

(** [bool query_has_results(char const* query)]. *)
Definition query_has_results (query : list ascii) : bool :=
  existsb (regex_search query) expect_results.

(** *** The classification as the specification words it *)

(** [w] is the keyword [kw] up to case. *)
Definition same_word (w : list ascii) (kw : string) : Prop :=
  map tolower w = map tolower (txt kw).

(** [kw] stands in [q] as a whole word, [pre] before it and [post] after. *)
Definition whole_word (kw : string) (pre post q : list ascii) : Prop :=
  exists w, q = pre ++ w ++ post /\ same_word w kw
            /\ word_before (last pre) = false
            /\ word_after post = false.

(** After the keyword a closing parenthesis comes before any opening
    one: the keyword is inside parentheses. *)
Definition closes_first (post : list ascii) : Prop :=
  exists a b, post = a ++ ")" :: b /\ Forall (fun c => c <> "(") a.

(** The claim: any of the five keywords, as a whole word, outside
    parentheses. *)
Definition has_results_claimed (q : list ascii) : Prop :=
  exists kw pre post,
    In kw ["SELECT"; "DESC"; "SHOW"; "EXPLAIN"; "DESCRIBE"]%string
    /\ whole_word kw pre post q /\ ~ closes_first post.

(** The code: the parenthesis test belongs to SELECT alone. *)
Definition has_results_spec (q : list ascii) : Prop :=
  (exists kw pre post,
     In kw ["DESC"; "SHOW"; "EXPLAIN"; "DESCRIBE"]%string /\ whole_word kw pre post q)
  \/ (exists pre post, whole_word "SELECT" pre post q /\ ~ closes_first post).

(** ** Scoped transactions (mysqlxx.h, sqlitexx.h, pqsqlxx.h)

    The three drivers declare the same class; they differ in the native
    call that runs a command and in how its success is read.  [run db cmd]
    is that call with its test: the flag is [err == 0],
    [err == SQLITE_OK], or [res && PQresultStatus(res) == PGRES_COMMAND_OK],
    and the second component is the connection afterwards. *)

Record transaction : Type := mk_transaction { finished_ : bool }.

Section Transaction.
Context {DB : Type}.
Variable run : DB -> list ascii -> bool * DB.

(** [bool begin()]. *)
Definition tr_begin (db : DB) : bool * DB := run db (txt "BEGIN;").

(** [transaction(db)]: [finished_ = !begin()]. *)
Definition tr_ctor (db : DB) : transaction * DB :=
  let '(ok, db') := tr_begin db in (mk_transaction (negb ok), db').

(** [transaction(transaction&& t)]: the new object, and [t] afterwards. *)
Definition tr_move (t : transaction) : transaction * transaction :=
  (mk_transaction (finished_ t), mk_transaction true).

(** [bool commit()]. *)
Definition tr_commit (t : transaction) (db : DB) : bool * transaction * DB :=
  if finished_ t then (true, t, db)
  else let '(ok, db') := run db (txt "COMMIT;") in
       (ok, mk_transaction ok, db').

(** [bool rollback()]. *)
Definition tr_rollback (t : transaction) (db : DB) : bool * transaction * DB :=
  if finished_ t then (true, t, db)
  else let '(ok, db') := run db (txt "ROLLBACK;") in
       (ok, mk_transaction ok, db').

(** [~transaction() { rollback(); }]: the connection afterwards. *)
Definition tr_dtor (t : transaction) (db : DB) : DB :=
  snd (tr_rollback t db).
End Transaction.

(** A native connection as a driver sees it: the results that the next
    calls will give, in order ([ok] once the list is used up), and the
    commands received so far. *)
Record native (R : Type) : Type := mk_native {
  replies : list R;
  sent : list (list ascii)
}.
Arguments mk_native {R} _ _.
Arguments replies {R} _.
Arguments sent {R} _.

Definition native_call {R} (ok : R) (db : native R) (cmd : list ascii) : R * native R :=
  (hd ok (replies db), mk_native (tl (replies db)) (sent db ++ [cmd])).

(** ** The MySQL driver (mysqlxx.h) *)

Module mysqlxx.

(** Client error numbers of [mysql/errmsg.h]. *)
Definition CR_UNKNOWN_ERROR : Z := 2000.
Definition CR_SERVER_GONE_ERROR : Z := 2006.
Definition CR_OUT_OF_MEMORY : Z := 2008.
Definition CR_SERVER_LOST : Z := 2013.
Definition CR_COMMANDS_OUT_OF_SYNC : Z := 2014.

Definition MYSQL : Type := native Z.

(** [::mysql_query(db, q)]: zero for success. *)
Definition mysql_query (db : MYSQL) (q : list ascii) : Z * MYSQL :=
  native_call 0%Z db q.

Definition run (db : MYSQL) (cmd : list ascii) : bool * MYSQL :=
  let '(err, db') := mysql_query db cmd in ((err =? 0)%Z, db').

Definition begin := tr_begin run.
Definition ctor := tr_ctor run.
Definition commit := tr_commit run.
Definition rollback := tr_rollback run.
Definition dtor := tr_dtor run.

(** What the native statement handle reports when the [statement] is
    constructed. *)
Record MYSQL_STMT : Type := mk_stmt {
  mysql_stmt_errno : Z;
  mysql_stmt_result_metadata : option nat;  (* the field count of the
                                               metadata, None for NULL *)
  mysql_stmt_insert_id : Z;
  mysql_stmt_affected_rows : Z
}.

Record statement : Type := mk_statement {
  num_ : nat;
  res_ : option nat;
  stmt_ : MYSQL_STMT;
  result_ : result_type;
  last_id_ : Z;
  affected_rows_ : Z
}.

(** The [switch] of the constructor: the result, and whether control
    leaves the [switch] by [break] rather than [return]. *)
Definition classify (errno : Z) : result_type * bool :=
  if (errno =? 0)%Z then (SQL_OK, true)
  else if (errno =? CR_COMMANDS_OUT_OF_SYNC)%Z then (SQL_IMPROPER, false)
  else if (errno =? CR_OUT_OF_MEMORY)%Z then (SQL_NO_MEMORY, false)
  else if (errno =? CR_SERVER_GONE_ERROR)%Z || (errno =? CR_SERVER_LOST)%Z
       then (SQL_SERVER_LOST, false)
  else (SQL_UNKNOWN_ERROR, false).

(** [statement(db const& db, ::MYSQL_STMT* stmt)]. *)
Definition statement_ctor (stmt : MYSQL_STMT) : statement :=
  let '(r, continue) := classify (mysql_stmt_errno stmt) in
  if continue then
    let res := mysql_stmt_result_metadata stmt in
    let num := match res with Some n => n | None => 0%nat end in
    let affected := to_uint64 (mysql_stmt_affected_rows stmt) in
    mk_statement num res stmt r
      (to_uint64 (mysql_stmt_insert_id stmt))
      (if (to_int64 affected <? 0)%Z then 0%Z else affected)
  else mk_statement 0 None stmt r 0%Z 0%Z.

Definition result (s : statement) : result_type := result_ s.
Definition last_id (s : statement) : Z := last_id_ s.
Definition affected_rows (s : statement) : Z := affected_rows_ s.

(** The values of [enum enum_field_types] that [do_bind] sets, and the
    zero of the enumeration. *)
Inductive enum_field_types : Type :=
| MYSQL_TYPE_DECIMAL
| MYSQL_TYPE_TINY
| MYSQL_TYPE_SHORT
| MYSQL_TYPE_LONG
| MYSQL_TYPE_DOUBLE
| MYSQL_TYPE_NULL
| MYSQL_TYPE_LONGLONG
| MYSQL_TYPE_BLOB
| MYSQL_TYPE_STRING.

(** What [MYSQL_BIND::buffer] points to. *)
Inductive buffer_ptr : Type :=
| buffer_null
| buffer_int64 (i64 : Z)
| buffer_double (d : float)
| buffer_data (s : list ascii).

(** The members of [MYSQL_BIND] that [do_bind] writes. *)
Record MYSQL_BIND : Type := mk_MYSQL_BIND {
  buffer_type : enum_field_types;
  buffer : buffer_ptr;
  buffer_length : nat;
  is_unsigned : bool
}.

(** An element of [std::vector<MYSQL_BIND> mbinds(cnt)]: all zero. *)
Definition MYSQL_BIND_zero : MYSQL_BIND :=
  mk_MYSQL_BIND MYSQL_TYPE_DECIMAL buffer_null 0 false.

(** [std::numeric_limits] of [int], [short] and [char] ([char] signed,
    as on x86-64). *)
Definition INT_MAX : Z := 2147483647.
Definition INT_MIN : Z := -2147483648.
Definition SHRT_MAX : Z := 32767.
Definition SHRT_MIN : Z := -32768.
Definition CHAR_MAX : Z := 127.
Definition CHAR_MIN : Z := -128.

(** The buffer type chosen for an integer. *)
Definition integer_type (i64 : Z) : enum_field_types :=
  if (INT_MAX <? i64)%Z || (i64 <? INT_MIN)%Z then MYSQL_TYPE_LONGLONG
  else if (SHRT_MAX <? i64)%Z || (i64 <? SHRT_MIN)%Z then MYSQL_TYPE_LONG
  else if (CHAR_MAX <? i64)%Z || (i64 <? CHAR_MIN)%Z then MYSQL_TYPE_SHORT
  else MYSQL_TYPE_TINY.

(** The chain of tests in the loop of [do_bind], applied to the zeroed
    [mbind]. *)
Definition to_mbind (bind : field_type) : MYSQL_BIND :=
  match type_ bind with
  | SQL_BLOB => mk_MYSQL_BIND MYSQL_TYPE_BLOB (buffer_data (str_ bind)) (length (str_ bind)) true
  | SQL_TEXT => mk_MYSQL_BIND MYSQL_TYPE_STRING (buffer_data (str_ bind)) (length (str_ bind)) false
  | SQL_NULL => mk_MYSQL_BIND MYSQL_TYPE_NULL buffer_null 0 false
  | SQL_INTEGER => mk_MYSQL_BIND (integer_type (int_ bind)) (buffer_int64 (int_ bind)) 0 false
  | SQL_FLOAT => mk_MYSQL_BIND MYSQL_TYPE_DOUBLE (buffer_double (float_ bind)) 0 false
  | SQL_INVALID => MYSQL_BIND_zero
  end.

(** [for (size_t i = 0; i < cnt; ++i) { if (i >= binds.size()) continue; ... }]
    from [i] on, [n] rounds being left. *)
Fixpoint fill_mbinds (binds : list field_type) (i n : nat) (mbinds : list MYSQL_BIND)
  : list MYSQL_BIND :=
  match n with
  | O => mbinds
  | S n' =>
      match binds !! i with
      | None => fill_mbinds binds (S i) n' mbinds
      | Some bind => fill_mbinds binds (S i) n' (<[i := to_mbind bind]> mbinds)
      end
  end.

(** What the native statement answers during [execute_impl]. *)
Record stmt_answers : Type := mk_stmt_answers {
  mysql_stmt_prepare : Z;
  mysql_stmt_param_count : nat;
  mysql_stmt_execute : Z
}.

(** [int do_bind(::MYSQL_STMT* stmt, std::vector<field_type> binds)]:
    the array given to [mysql_stmt_bind_param] ([None] when it is not
    called) and the result of [mysql_stmt_execute]. *)
Definition do_bind (stmt : stmt_answers) (binds : list field_type)
  : option (list MYSQL_BIND) * Z :=
  let cnt := mysql_stmt_param_count stmt in
  match cnt with
  | O => (None, mysql_stmt_execute stmt)
  | S _ =>
      (Some (fill_mbinds binds 0 cnt (replicate cnt MYSQL_BIND_zero)),
       mysql_stmt_execute stmt)
  end.

(** The calls made on the statement handle by [execute_impl]. *)
Record stmt_calls : Type := mk_stmt_calls {
  cursor_attr : bool;                       (* the two [mysql_stmt_attr_set] *)
  prepared : list ascii;                    (* [strlen(query)] bytes of [query] *)
  bound : option (list MYSQL_BIND);         (* [mysql_stmt_bind_param] *)
  executed : bool                           (* [mysql_stmt_execute] *)
}.

(** [sqlxx::cursor execute_impl(char const* query, std::vector<field_type> bind)]:
    the statement made from the handle that [transaction_lock()] returns,
    the calls on that handle and the connection afterwards.  [stmt]
    holds the answers of the native calls, [handle] what the handle
    reports when the statement object is constructed. *)
Definition execute_impl (query : list ascii) (bind : list field_type)
    (stmt : stmt_answers) (handle : MYSQL_STMT) (db : MYSQL)
  : statement * stmt_calls * MYSQL :=
  let '(tr, db1) := ctor db in
  let attr := query_has_results query in
  if (mysql_stmt_prepare stmt =? 0)%Z then
    let '(mbinds, err) := do_bind stmt bind in
    let '(tr2, db2) :=
      if (err =? 0)%Z
      then let '(_, t, d) := commit tr db1 in (t, d)
      else (tr, db1) in
    (statement_ctor handle, mk_stmt_calls attr (c_text query) mbinds true, dtor tr2 db2)
  else (statement_ctor handle, mk_stmt_calls attr (c_text query) None false, dtor tr db1).

(** The bytes of a [std::int64_t] in memory, lowest first (x86-64). *)
Definition int64_bytes (i64 : Z) : list Z :=
  map (fun k => (to_uint64 i64 / 256 ^ Z.of_nat k) mod 256)%Z (seq 0 8).

(** The number of bytes the client library reads from the buffer of an
    integer parameter, by its type. *)
Definition integer_width (t : enum_field_types) : nat :=
  match t with
  | MYSQL_TYPE_TINY => 1
  | MYSQL_TYPE_SHORT => 2
  | MYSQL_TYPE_LONG => 4
  | _ => 8
  end.

(** The signed integer that [bytes], lowest first, represent. *)
Fixpoint unsigned_value (bytes : list Z) : Z :=
  match bytes with
  | [] => 0
  | b :: bytes' => b + 256 * unsigned_value bytes'
  end.

Definition signed_value (bytes : list Z) : Z :=
  let u := unsigned_value bytes in
  let m := (256 ^ Z.of_nat (length bytes))%Z in
  if (2 * u <? m)%Z then u else (u - m)%Z.

(** What the server receives for an integer parameter: the client
    library reads [integer_width] bytes at [buffer]. *)
Definition sent_integer (mb : MYSQL_BIND) : option Z :=
  match buffer mb with
  | buffer_int64 i64 =>
      Some (signed_value (firstn (integer_width (buffer_type mb)) (int64_bytes i64)))
  | _ => None
  end.

End mysqlxx.

(** ** The SQLite driver (sqlitexx.h) *)

Module sqlitexx.

(** Result codes of [sqlite3.h]. *)
Definition SQLITE_OK : Z := 0.
Definition SQLITE_NOMEM : Z := 7.
Definition SQLITE_EMPTY : Z := 16.
Definition SQLITE_ROW : Z := 100.
Definition SQLITE_DONE : Z := 101.

Definition sqlite3_conn : Type := native Z.

(** [::sqlite3_exec(db, sql, nullptr, nullptr, nullptr)]. *)
Definition sqlite3_exec (db : sqlite3_conn) (sql : list ascii) : Z * sqlite3_conn :=
  native_call SQLITE_OK db sql.

Definition run (db : sqlite3_conn) (cmd : list ascii) : bool * sqlite3_conn :=
  let '(err, db') := sqlite3_exec db cmd in ((err =? SQLITE_OK)%Z, db').

Definition begin := tr_begin run.
Definition ctor := tr_ctor run.
Definition commit := tr_commit run.
Definition rollback := tr_rollback run.
Definition dtor := tr_dtor run.

(** What the connection reports to the [statement] constructor. *)
Record sqlite3 : Type := mk_sqlite3 {
  sqlite3_errcode : Z;
  sqlite3_last_insert_rowid : Z;
  sqlite3_changes : Z
}.

(** A prepared statement: [::sqlite3_step] gives a result code and
    leaves the connection changed. *)
Record sqlite3_stmt : Type := mk_sqlite3_stmt {
  sqlite3_step : sqlite3 -> Z * sqlite3
}.

Record statement : Type := mk_statement {
  stmt_ : option sqlite3_stmt;
  result_ : result_type;
  last_id_ : Z;
  affected_rows_ : Z
}.

Definition classify (result : Z) : result_type * bool :=
  if (result =? SQLITE_OK)%Z || (result =? SQLITE_DONE)%Z then (SQL_OK, true)
  else if (result =? SQLITE_NOMEM)%Z then (SQL_NO_MEMORY, false)
  else if (result =? SQLITE_EMPTY)%Z then (SQL_IMPROPER, false)
  else (SQL_UNKNOWN_ERROR, false).

(** [statement(::sqlite3* db_, ::sqlite3_stmt* stmt)]: the object and
    the connection afterwards. *)
Definition statement_ctor (db : sqlite3) (stmt : option sqlite3_stmt)
  : statement * sqlite3 :=
  let '(result, db') :=
    match stmt with
    | None => (sqlite3_errcode db, db)
    | Some st => sqlite3_step st db
    end in
  let '(r, continue) := classify result in
  if continue then
    (mk_statement stmt r
       (to_uint64 (sqlite3_last_insert_rowid db'))
       (to_uint64 (sqlite3_changes db')), db')
  else (mk_statement stmt r 0%Z 0%Z, db').

Definition result (s : statement) : result_type := result_ s.
Definition last_id (s : statement) : Z := last_id_ s.
Definition affected_rows (s : statement) : Z := affected_rows_ s.

(** A call of one of the [sqlite3_bind_*] functions. *)
Inductive bind_call : Type :=
| sqlite3_bind_blob (idx : Z) (v : list ascii) (n : nat)
| sqlite3_bind_text (idx : Z) (s : list ascii) (n : nat)
| sqlite3_bind_null (idx : Z)
| sqlite3_bind_int64 (idx : Z) (i64 : Z)
| sqlite3_bind_double (idx : Z) (d : float).

(** [name.empty() ? idx : ::sqlite3_bind_parameter_index(stmt, name.c_str())]. *)
Definition bind_index (parameter_index : list ascii -> Z) (idx : Z) (name : list ascii) : Z :=
  match name with
  | [] => idx
  | _ :: _ => parameter_index (c_text name)
  end.

(** The chain of tests in the loop of [do_bind]: the call made for a
    binding, none for a field of no type. *)
Definition bind_call_of (parameter_index : list ascii -> Z) (idx : Z) (bind : field_type)
  : option bind_call :=
  let i := bind_index parameter_index idx (name_ bind) in
  match type_ bind with
  | SQL_BLOB => Some (sqlite3_bind_blob i (str_ bind) (length (str_ bind)))
  | SQL_TEXT => Some (sqlite3_bind_text i (str_ bind) (length (str_ bind)))
  | SQL_NULL => Some (sqlite3_bind_null i)
  | SQL_INTEGER => Some (sqlite3_bind_int64 i (int_ bind))
  | SQL_FLOAT => Some (sqlite3_bind_double i (float_ bind))
  | SQL_INVALID => None
  end.

(** [int do_bind(::sqlite3_stmt* stmt, std::vector<field_type> binds)]
    from [idx] on: the result and the calls made.  [answer] is the
    result code the library gives a call. *)
Fixpoint do_bind (parameter_index : list ascii -> Z) (answer : bind_call -> Z)
    (idx : Z) (binds : list field_type) : Z * list bind_call :=
  match binds with
  | [] => (SQLITE_OK, [])
  | bind :: binds' =>
      match bind_call_of parameter_index idx bind with
      | None => do_bind parameter_index answer (idx + 1) binds'
      | Some c =>
          let err := answer c in
          if (err =? SQLITE_OK)%Z
          then let '(e, cs) := do_bind parameter_index answer (idx + 1) binds' in (e, c :: cs)
          else (err, [c])
      end
  end.

(** What happens on the connection during [execute_impl], in order. *)
Inductive event : Type :=
| ev_exec (sql : list ascii)
| ev_prepare (sql : list ascii)
| ev_bind (c : bind_call)
| ev_step.

(** The connection with the events so far; [exec_answers] are the
    results that the next calls of [sqlite3_exec] will give. *)
Record traced : Type := mk_traced {
  exec_answers : list Z;
  events : list event
}.

Definition traced_run (db : traced) (cmd : list ascii) : bool * traced :=
  ((hd SQLITE_OK (exec_answers db) =? SQLITE_OK)%Z,
   mk_traced (tl (exec_answers db)) (events db ++ [ev_exec cmd])).

Definition log (db : traced) (es : list event) : traced :=
  mk_traced (exec_answers db) (events db ++ es).

(** [sqlxx::cursor execute_impl(char const* query, std::vector<field_type> bind)].
    [prepare] is the result of [sqlite3_prepare_v2] with the statement it
    gives; the statement object is made, and with it the prepared
    statement stepped, before [tr] goes out of scope. *)
Definition execute_impl (parameter_index : list ascii -> Z) (answer : bind_call -> Z)
    (prepare : Z * option sqlite3_stmt) (query : list ascii) (bind : list field_type)
    (st : sqlite3) (db : traced) : statement * sqlite3 * traced :=
  let '(tr, db1) := tr_ctor traced_run db in
  let db2 := log db1 [ev_prepare (c_text query)] in
  let '(err, stmt) := prepare in
  let '(err2, db3) :=
    if (err =? SQLITE_OK)%Z
    then let '(e, cs) := do_bind parameter_index answer 1 bind in
         (e, log db2 (map ev_bind cs))
    else (err, db2) in
  let '(tr2, db4) :=
    if (err2 =? SQLITE_OK)%Z
    then let '(_, t, d) := tr_commit traced_run tr db3 in (t, d)
    else (tr, db3) in
  let '(s, st') := statement_ctor st stmt in
  let db5 := match stmt with Some _ => log db4 [ev_step] | None => db4 end in
  (s, st', tr_dtor traced_run tr2 db5).

End sqlitexx.

(** ** The PostgreSQL driver (pqsqlxx.h) *)

Module pqsqlxx.

(** [ExecStatusType] of [libpq-fe.h]. *)
Inductive ExecStatusType : Type :=
| PGRES_EMPTY_QUERY
| PGRES_COMMAND_OK
| PGRES_TUPLES_OK
| PGRES_COPY_OUT
| PGRES_COPY_IN
| PGRES_BAD_RESPONSE
| PGRES_NONFATAL_ERROR
| PGRES_FATAL_ERROR
| PGRES_COPY_BOTH
| PGRES_SINGLE_TUPLE.

(** A [PGresult] as the driver reads it. *)
Record PGresult : Type := mk_PGresult {
  PQresultStatus : ExecStatusType;
  PQoidValue : Z;
  PQcmdTuples : list ascii
}.

Definition is_command_ok (res : option PGresult) : bool :=
  match res with
  | Some r => match PQresultStatus r with PGRES_COMMAND_OK => true | _ => false end
  | None => false
  end.

Definition PGconn : Type := native (option PGresult).

(** [::PQexec(db, command)]: a result, or a null pointer. *)
Definition PQexec (db : PGconn) (command : list ascii) : option PGresult * PGconn :=
  native_call (Some (mk_PGresult PGRES_COMMAND_OK 0 [])) db command.

Definition run (db : PGconn) (cmd : list ascii) : bool * PGconn :=
  let '(res, db') := PQexec db cmd in (is_command_ok res, db').

Definition begin := tr_begin run.
Definition ctor := tr_ctor run.
Definition commit := tr_commit run.
Definition rollback := tr_rollback run.
Definition dtor := tr_dtor run.

Definition ULLONG_MAX : Z := two64 - 1.

Fixpoint skip_space (s : list ascii) : list ascii :=
  match s with
  | c :: s' => if is_space c then skip_space s' else s
  | [] => []
  end.

Fixpoint digits_value (s : list ascii) (acc : Z) : Z :=
  match s with
  | c :: s' =>
      if is_digit c
      then digits_value s' (acc * 10 + (Z.of_nat (nat_of_ascii c) - 48))
      else acc
  | [] => acc
  end.

(** [std::strtoull(s, nullptr, 10)]: blanks, a sign, decimal digits;
    [ULLONG_MAX] on overflow; a minus sign negates modulo 2^64. *)
Definition strtoull (s : list ascii) : Z :=
  let body := skip_space (c_text s) in
  let '(neg, ds) :=
    match body with
    | "-" :: t => (true, t)
    | "+" :: t => (false, t)
    | _ => (false, body)
    end in
  let v := digits_value ds 0 in
  if (ULLONG_MAX <? v)%Z then ULLONG_MAX
  else if neg then to_uint64 (- v) else v.

Record statement : Type := mk_statement {
  close_ : list ascii;
  result_ : result_type;
  fetch_next_ : list ascii;
  move_first_ : list ascii;
  last_id_ : Z;
  affected_rows_ : Z
}.

(** The [switch] on [PQresultStatus(res)]; [conn_ok] is
    [PQstatus(db_()) == CONNECTION_OK]. *)
Definition classify (status : ExecStatusType) (conn_ok : bool) : result_type * bool :=
  match status with
  | PGRES_COMMAND_OK | PGRES_NONFATAL_ERROR => (SQL_OK, true)
  | PGRES_BAD_RESPONSE => (SQL_UNKNOWN_ERROR, false)
  | PGRES_EMPTY_QUERY => (SQL_IMPROPER, false)
  | PGRES_FATAL_ERROR =>
      if conn_ok then (SQL_UNKNOWN_ERROR, false) else (SQL_SERVER_LOST, false)
  | _ => (SQL_UNKNOWN_ERROR, false)
  end.

(** [statement(db const& db, pqresult res, std::string const& cur)]. *)
Definition statement_ctor (conn_ok : bool) (res : option PGresult) (cur : list ascii)
  : statement :=
  match res with
  | None => mk_statement [] SQL_NO_MEMORY [] [] 0%Z 0%Z
  | Some r =>
      let '(rt, continue) := classify (PQresultStatus r) conn_ok in
      if continue then
        mk_statement (txt "CLOSE " ++ cur) rt
          (txt "FETCH NEXT in " ++ cur)
          (txt "MOVE BACKWARD ALL in " ++ cur)
          (to_uint64 (PQoidValue r))
          (strtoull (PQcmdTuples r))
      else mk_statement [] rt [] [] 0%Z 0%Z
  end.

Definition result (s : statement) : result_type := result_ s.
Definition last_id (s : statement) : Z := last_id_ s.
Definition affected_rows (s : statement) : Z := affected_rows_ s.

(** [std::regex_replace(query, blob, "BYTEA")] for the pattern
    [\b(BLOB)\b] under icase: every match, from left to right, gives way
    to [BYTEA] and the rest is copied.  A match is the four letters;
    [skip] counts those of the current match still to be passed. *)
Fixpoint replace_blob (skip : nat) (prev : option ascii) (inp : list ascii)
  : list ascii :=
  match inp with
  | [] => []
  | c :: inp' =>
      match skip with
      | S k => replace_blob k (Some c) inp'
      | O =>
          if re_match_here (re_keyword "BLOB") prev inp
          then txt "BYTEA" ++ replace_blob 3 (Some c) inp'
          else c :: replace_blob 0 (Some c) inp'
      end
  end.

(** [query.find('?')]. *)
Fixpoint find_char (q : list ascii) (c : ascii) : option nat :=
  match q with
  | [] => None
  | x :: q' => if Ascii.eqb x c then Some 0%nat else option_map S (find_char q' c)
  end.

(** [while ((pos = query.find('?')) != query.npos)
    { r << '$' << ++cnt; query.replace(pos, 1, buf); r.seekp(0); }]
    with the scratch buffer as in [placeholder]. *)
Fixpoint number_while (fuel cnt : nat) (query : list ascii) : option (list ascii) :=
  match fuel with
  | O => None
  | S fuel' =>
      match find_char query "?" with
      | None => Some query
      | Some pos =>
          number_while fuel' (S cnt) (replace query pos 1 ("$" :: digits (S cnt)))
      end
  end.

(** [r << ++i] for a [size_t]. *)
Definition digitsN (n : N) : list ascii :=
  txt (DecimalString.NilZero.string_of_uint (N.to_uint n)).

(** [std::string pq_build_query(std::string query, std::string& cursor)]:
    the query to send, the cursor name (empty when none is declared) and
    the static counter afterwards.  [shared] tells whether
    [USE_SHARED_CONNECTION] is defined: then the counter is the local
    [std::atomic<size_t> i(0)], fresh at every call, otherwise the
    [static size_t i] whose value is [i]. *)
Definition pq_build_query (shared : bool) (fuel : nat) (i : N) (query : list ascii)
  : option (list ascii * list ascii * N) :=
  match number_while fuel 0 (replace_blob 0 None query) with
  | None => None
  | Some q =>
      if query_has_results (q ++ [NUL]) then
        let n := if shared then 1%N else ((i + 1) mod 2 ^ 64)%N in
        let cursor := txt "cursor_" ++ digitsN n in
        Some (txt "DECLARE " ++ cursor ++ txt " SCROLL CURSOR WITH HOLD FOR " ++ q ++ [";"],
              cursor, if shared then i else n)
      else Some (q, [], i)
  end.

(** A hexadecimal digit of either case. *)
Definition hex_value (c : ascii) : option Z :=
  if is_digit c then Some (Z.of_nat (nat_of_ascii c) - 48)%Z
  else if in_range 97 102 c then Some (Z.of_nat (nat_of_ascii c) - 87)%Z
  else if in_range 65 70 c then Some (Z.of_nat (nat_of_ascii c) - 55)%Z
  else None.

Fixpoint hex_digits_value (s : list ascii) (acc : Z) : Z :=
  match s with
  | c :: s' =>
      match hex_value c with
      | Some v => hex_digits_value s' (acc * 16 + v)
      | None => acc
      end
  | [] => acc
  end.

Definition LONG_MAX : Z := two63 - 1.
Definition LONG_MIN : Z := - two63.

(** [std::strtol(s, nullptr, 16)]: blanks, a sign, an optional [0x] that
    a hexadecimal digit follows, hexadecimal digits; clamped to [long]. *)
Definition strtol16 (s : list ascii) : Z :=
  let body := skip_space (c_text s) in
  let '(neg, ds) :=
    match body with
    | "-" :: t => (true, t)
    | "+" :: t => (false, t)
    | _ => (false, body)
    end in
  let ds' :=
    match ds with
    | "0" :: x :: h :: t =>
        if (Ascii.eqb x "x" || Ascii.eqb x "X")
           && match hex_value h with Some _ => true | None => false end
        then h :: t else ds
    | _ => ds
    end in
  let v := hex_digits_value ds' 0 in
  let r := if neg then (- v)%Z else v in
  if (LONG_MAX <? r)%Z then LONG_MAX else if (r <? LONG_MIN)%Z then LONG_MIN else r.

(** [char(n)] for a [long]: the low byte. *)
Definition char_of_long (n : Z) : ascii := ascii_of_nat (Z.to_nat (n mod 256)).

(** The loop [for (size_t i = 2; i < len; i += 2)] of [next()], [data]
    being the bytes from position [i] on; the byte after the last is the
    terminating NUL. *)
Fixpoint decode_hex (data : list ascii) : list ascii :=
  match data with
  | [] => []
  | [d] => [char_of_long (strtol16 [d; NUL])]
  | d1 :: d2 :: rest => char_of_long (strtol16 [d1; d2]) :: decode_hex rest
  end.

(** [kw] up to case at the head of [inp]. *)
Fixpoint prefix_icase (kw inp : list ascii) : bool :=
  match kw, inp with
  | [], _ => true
  | c :: kw', x :: inp' => ieq x c && prefix_icase kw' inp'
  | _ :: _, [] => false
  end.

(** [data == end] after [std::strtod(data, &end)] is false: a number was
    read.  In the "C" locale that is, after blanks and a sign, a digit, a
    point before a digit, or INF or NAN in any case. *)
Definition strtod_converts (s : list ascii) : bool :=
  let body := skip_space (c_text s) in
  let ds :=
    match body with
    | "-" :: t => t
    | "+" :: t => t
    | _ => body
    end in
  match ds with
  | c :: rest =>
      is_digit c
      || (Ascii.eqb c "." && match rest with d :: _ => is_digit d | [] => false end)
      || prefix_icase (txt "inf") ds
      || prefix_icase (txt "nan") ds
  | [] => false
  end.

Definition LLONG_MAX : Z := two63 - 1.
Definition LLONG_MIN : Z := - two63.

(** [std::strtoll(s, nullptr, 10)]. *)
Definition strtoll (s : list ascii) : Z :=
  let body := skip_space (c_text s) in
  let '(neg, ds) :=
    match body with
    | "-" :: t => (true, t)
    | "+" :: t => (false, t)
    | _ => (false, body)
    end in
  let v := digits_value ds 0 in
  let r := if neg then (- v)%Z else v in
  if (LLONG_MAX <? r)%Z then LLONG_MAX else if (r <? LLONG_MIN)%Z then LLONG_MIN else r.

(** [strchr(data, c)] finds [c]. *)
Definition has_char (data : list ascii) (c : ascii) : bool :=
  existsb (Ascii.eqb c) (c_text data).

(** One column of the fetched row as libpq shows it: [PQfname],
    [PQgetisnull], [PQfformat], and the [PQgetlength] bytes at
    [PQgetvalue], which a NUL follows. *)
Record pq_value : Type := mk_pq_value {
  PQfname : list ascii;
  PQgetisnull : bool;
  PQfformat : Z;
  PQgetvalue : list ascii
}.

(** The body of the loop over the columns in [next()]: the field added
    to the row, [None] when the column is passed over.  [strtod_value] is
    the number that [std::strtod] reads. *)
Definition pq_field (strtod_value : list ascii -> float) (v : pq_value)
  : option field_type :=
  let name := c_text (PQfname v) in
  let data := PQgetvalue v in
  if PQgetisnull v then Some (field_null name)
  else if negb (PQfformat v =? 0)%Z then None
  else
    match data with
    | [] => Some (field_null name)
    | d0 :: tl0 =>
        if (1 <? length data)%nat && Ascii.eqb d0 "\" && Ascii.eqb (hd NUL tl0) "x"
        then Some (field_blob (decode_hex (skipn 2 data)) name)
        else if negb (strtod_converts data) then Some (field_text data name)
        else if has_char data "." || has_char data ","
             then Some (field_double (strtod_value data) name)
        else Some (field_int (strtoll data) name)
    end.

(** The reply to [FETCH NEXT] as [next()] reads it: [PQresultStatus],
    [PQntuples], and the [PQnfields] columns of the first tuple. *)
Record pq_tuples : Type := mk_pq_tuples {
  tuples_status : ExecStatusType;
  PQntuples : Z;
  fields : list pq_value
}.

(** [sqlxx::row next()], [fetched] being what
    [::PQexec(db_(), fetch_next_.c_str())] returns. *)
Definition next (strtod_value : list ascii -> float) (s : statement)
    (fetched : option pq_tuples) : row :=
  match fetch_next_ s with
  | [] => []
  | _ :: _ =>
      match fetched with
      | None => []
      | Some res =>
          match tuples_status res with
          | PGRES_TUPLES_OK =>
              if (0 <? PQntuples res)%Z
              then omap (pq_field strtod_value) (fields res)
              else []
          | _ => []
          end
      end
  end.

(** The [switch] of both loops of [execute_impl]. *)
Definition is_typed (b : field_type) : bool :=
  match type_ b with
  | SQL_INTEGER | SQL_FLOAT | SQL_TEXT | SQL_BLOB => true
  | _ => false
  end.

(** The first loop: [values] gets the text of every typed binding,
    [paramLengths] a length for every binding. *)
Fixpoint param_texts (fmt_double : float -> list ascii) (binds : list field_type)
  : list (list ascii) * list nat :=
  match binds with
  | [] => ([], [])
  | b :: binds' =>
      let '(values, lengths) := param_texts fmt_double binds' in
      if is_typed b
      then (toString fmt_double b :: values, length (toString fmt_double b) :: lengths)
      else (values, 0%nat :: lengths)
  end.

(** The second loop: [paramValues[i] = values[v++].data()] for a typed
    binding, the null pointer left for the others. *)
Fixpoint param_values (binds : list field_type) (values : list (list ascii)) (v : nat)
  : list (option (list ascii)) :=
  match binds with
  | [] => []
  | b :: binds' =>
      if is_typed b
      then Some (nth v values []) :: param_values binds' values (S v)
      else None :: param_values binds' values v
  end.

(** [sqlxx::cursor execute_impl(char const* query, std::vector<field_type> binds)]:
    the statement, the parameters sent (none on the [PQexec] path), the
    counter of [pq_build_query] and the connection afterwards.  [PQexec]
    and [PQexecParams] are one native call on the connection; [conn_ok]
    is what [PQstatus] tells the statement. *)
Definition execute_impl (fmt_double : float -> list ascii) (shared : bool)
    (fuel : nat) (i : N) (conn_ok : bool) (query : list ascii)
    (binds : list field_type) (db : PGconn)
  : option (statement * list (option (list ascii)) * N * PGconn) :=
  match pq_build_query shared fuel i (c_text query) with
  | None => None
  | Some (q, cursor, i') =>
      let params :=
        match binds with
        | [] => []
        | _ :: _ => param_values binds (fst (param_texts fmt_double binds)) 0
        end in
      let '(tr, db1) := ctor db in
      let '(res, db2) := PQexec db1 q in
      let '(tr2, db3) :=
        if is_command_ok res
        then let '(_, t, d) := commit tr db2 in (t, d)
        else (tr, db2) in
      Some (statement_ctor conn_ok res cursor, params, i', dtor tr2 db3)
  end.

End pqsqlxx.

(** ** Auxiliary definitions of the proofs *)

(** [idx] is the position of the first field of [r] named [name]. *)
Definition first_named (r : row) (name : list ascii) (idx : nat) : Prop :=
  (exists f, nth_error r idx = Some f /\ name_ f = name)
  /\ forall j f, (j < idx)%nat -> nth_error r j = Some f -> name_ f <> name.

(** A statement over rows held in memory: [next] hands out the row at
    the position and moves on, the empty row past the end; [first]
    rewinds. *)
Record rows_statement : Type := mk_rows_statement {
  rs_rows : list row;
  rs_pos : nat
}.

#[export] Instance rows_statement_statement : statement rows_statement := {
  next s := (nth (rs_pos s) (rs_rows s) [], mk_rows_statement (rs_rows s) (S (rs_pos s)));
  first s := mk_rows_statement (rs_rows s) 0;
  result _ := SQL_OK;
  last_id _ := 0%Z;
  affected_rows _ := 0%Z
}.

(** A driver that returns what it was given. *)
#[export] Instance echo_driver : driver (char_ptr * list field_type) := {
  execute_impl query bind := (query, bind)
}.

(** The character before the position reached after reading [pre], when
    [prev] was the character before [pre]. *)
Definition prev_of (prev : option ascii) (pre : list ascii) : option ascii :=
  match last pre with
  | Some x => Some x
  | None => prev
  end.

(** Reading the word [kw] up to case at the head of [inp]: the character
    before the position reached, and the rest of the input. *)
Fixpoint strip_icase (kw : list ascii) (prev : option ascii) (inp : list ascii)
  : option (option ascii * list ascii) :=
  match kw, inp with
  | [], _ => Some (prev, inp)
  | c :: kw', x :: inp' => if ieq x c then strip_icase kw' (Some x) inp' else None
  | _ :: _, [] => None
  end.

(** [closes_first] as a test. *)
Fixpoint closes_firstb (post : list ascii) : bool :=
  match post with
  | x :: post' => (negb (ieq x "(") && closes_firstb post') || ieq x ")"
  | [] => false
  end.

(** The rows a statement hands out before its first empty row, [r] being
    the row pulled last and [s] the state after that pull; the state
    reached is the one after the empty row was pulled. *)
Fixpoint rows_until_empty {S} `{statement S} (fuel : nat) (r : row) (s : S)
  : option (list row * S) :=
  match fuel with
  | O => None
  | S fuel' =>
      match r with
      | [] => Some ([], s)
      | _ :: _ =>
          let '(r', s') := next s in
          match rows_until_empty fuel' r' s' with
          | Some (rs, s'') => Some (r :: rs, s'')
          | None => None
          end
      end
  end.

(** The fields bound by a chain of appends, in order, and the appends
    that write text. *)
Fixpoint binds_of (l : list append) : list field_type :=
  match l with
  | [] => []
  | app_bind f :: l' => f :: binds_of l'
  | _ :: l' => binds_of l'
  end.

Fixpoint texts_of (l : list append) : list append :=
  match l with
  | [] => []
  | app_bind _ :: l' => texts_of l'
  | a :: l' => a :: texts_of l'
  end.

(** One pass over a query that gives every [?] its number, the first one
    [$] and [cnt + 1]. *)
Fixpoint number_params (cnt : nat) (q : list ascii) : list ascii :=
  match q with
  | [] => []
  | c :: q' =>
      if Ascii.eqb c "?"
      then "$" :: digits (S cnt) ++ number_params (S cnt) q'
      else c :: number_params cnt q'
  end.

(** A keyword that begins and ends with a word character. *)
Definition kw_ok (kw : string) : Prop :=
  word_after (txt kw) = true /\ word_before (last (txt kw)) = true.

(** One pattern [pat] replaced by [s] wherever it starts. *)
Definition match_one (pat s : list ascii) (q : list ascii) : option (list ascii * nat) :=
  if prefixb pat q then Some (s, length (tl pat)) else None.

Definition subst_one (pat s q : list ascii) : list ascii :=
  rewrite_all (match_one pat s) q.

(** The names substituted one after the other, each over the whole text. *)
Fixpoint subst_seq (names : list (list ascii)) (i : nat) (q : list ascii) : list ascii :=
  match names with
  | [] => q
  | s :: names' => subst_seq names' (S i) (subst_one (placeholder i) s q)
  end.

(** * Properties *)

(** ** Bytes *)

Lemma c_text_no_nul (mem : list ascii) :
  Forall (fun c => c <> NUL) (c_text mem).
Proof.
  induction mem as [|c mem IH]; simpl; [constructor|].
  unfold is_nul. destruct (Ascii.eqb_spec c NUL) as [->|Hc]; [constructor|].
  constructor; assumption.
Qed.

Lemma c_text_id (s : list ascii) :
  Forall (fun c => c <> NUL) s -> c_text s = s.
Proof.
  induction 1 as [|c s Hc _ IH]; simpl; [reflexivity|].
  unfold is_nul. destruct (Ascii.eqb_spec c NUL); [contradiction|].
  now rewrite IH.
Qed.

Lemma c_text_terminated (s : list ascii) :
  c_text (s ++ [NUL]) = c_text s.
Proof.
  induction s as [|c s IH]; simpl; [reflexivity|].
  destruct (is_nul c); [reflexivity|]. now rewrite IH.
Qed.

Lemma c_text_idem (mem : list ascii) : c_text (c_text mem) = c_text mem.
Proof. apply c_text_id, c_text_no_nul. Qed.

(** ** Escaping *)

Lemma escape_app (a b : list ascii) : escape (a ++ b) = escape a ++ escape b.
Proof. unfold escape. now rewrite flat_map_app. Qed.

Lemma escape_loop_spec (text out : list ascii) :
  escape_loop text out = out ++ escape (c_text text).
Proof.
  revert out. induction text as [|c text IH]; intros out; simpl.
  - now rewrite app_nil_r.
  - destruct (is_nul c) eqn:Hn; simpl; [now rewrite app_nil_r|].
    rewrite IH. unfold escape. simpl.
    destruct (Ascii.eqb c quote) eqn:Hq; destruct (Ascii.eqb c backslash) eqn:Hb;
      simpl; repeat rewrite <- app_assoc; try reflexivity.
    + apply Ascii.eqb_eq in Hq, Hb. subst. discriminate.
    + apply Ascii.eqb_eq in Hq. now subst.
    + apply Ascii.eqb_eq in Hb. now subst.
Qed.

Lemma escape_plain (s : list ascii) :
  Forall (fun c => c <> quote /\ c <> backslash) s -> escape s = s.
Proof.
  induction 1 as [|c s [Hq Hb] _ IH]; [reflexivity|].
  unfold escape in *. simpl. rewrite IH.
  destruct (Ascii.eqb_spec c quote); [contradiction|].
  destruct (Ascii.eqb_spec c backslash); [contradiction|]. reflexivity.
Qed.

Lemma strpbrk_none_plain (mem : list ascii) :
  strpbrk mem [quote; backslash] = None ->
  Forall (fun c => c <> quote /\ c <> backslash) (c_text mem).
Proof.
  induction mem as [|c mem IH]; simpl; intros H; [constructor|].
  destruct (is_nul c); [constructor|].
  destruct (Ascii.eqb_spec c quote) as [|Hq]; simpl in H; [discriminate|].
  destruct (Ascii.eqb_spec c backslash) as [|Hb]; simpl in H; [discriminate|].
  constructor; auto.
Qed.

Lemma shl_text_spec (q : query) (mem : list ascii) :
  shl_text q (ptr mem) = mk_query (query_ q ++ escape (c_text mem)) (bind_ q).
Proof.
  unfold shl_text.
  destruct (is_nul (hd NUL mem)) eqn:Hn.
  - assert (c_text mem = []) as ->.
    { destruct mem; simpl in *; [reflexivity | now rewrite Hn]. }
    simpl. rewrite app_nil_r. now destruct q.
  - destruct (strpbrk mem [quote; backslash]) eqn:Hs.
    + now rewrite escape_loop_spec.
    + now rewrite (escape_plain _ (strpbrk_none_plain _ Hs)).
Qed.

(** C1.  Appending a C string as raw text, [operator<<(char const* )],
    appends the string with every single quote and every backslash
    doubled and every other byte unchanged, and leaves the bindings alone;
    a string with neither character is appended as it is; a null pointer
    appends nothing; appending [O'Brien\x] appends [O''Brien\\x]. *)
Theorem C1_raw_text_doubles_quote_and_backslash (q : query) (mem : list ascii) :
  query_ (shl_text q (ptr mem)) = query_ q ++ escape (c_text mem)
  /\ bind_ (shl_text q (ptr mem)) = bind_ q
  /\ (Forall (fun c => c <> quote /\ c <> backslash) (c_text mem) ->
      query_ (shl_text q (ptr mem)) = query_ q ++ c_text mem)
  /\ shl_text q nullptr = q
  /\ query_ (shl_text query_init (ptr (txt "O'Brien\x"))) = txt "O''Brien\\x".
Proof.
  rewrite shl_text_spec. simpl.
  repeat split; try reflexivity.
  intros Hp. now rewrite (escape_plain _ Hp).
Qed.

Lemma C1_plain_text_witness :
  query_ (shl_text (mk_query (txt "SELECT ") []) (ptr (txt "name FROM t")))
  = txt "SELECT name FROM t".
Proof.
  refine (proj1 (proj2 (proj2
    (C1_raw_text_doubles_quote_and_backslash
       (mk_query (txt "SELECT ") []) (txt "name FROM t")))) _).
  repeat constructor; discriminate.
Defined.

(** ** The constructor *)

Lemma query_ctor_spec (s : list ascii) :
  query_ctor s = mk_query (escape (c_text s)) [].
Proof.
  unfold query_ctor, c_str. rewrite shl_text_spec. simpl.
  now rewrite c_text_terminated.
Qed.

(** C10, as the code has it.  [query(s)] is the default-constructed
    builder with [s.c_str()] appended as raw text: its text is the escaped
    form of the bytes of [s] before the first NUL byte, which is the
    escaped form of [s] when [s] holds no NUL byte; nothing is bound. *)
Theorem C10_constructor_escapes_c_string (s : list ascii) :
  query_ctor s = shl_text query_init (c_str s)
  /\ query_ (query_ctor s) = escape (c_text s)
  /\ bind_ (query_ctor s) = []
  /\ (Forall (fun c => c <> NUL) s -> query_ (query_ctor s) = escape s).
Proof.
  split; [reflexivity|].
  rewrite query_ctor_spec. simpl. repeat split.
  intros Hs. now rewrite (c_text_id _ Hs).
Qed.

Lemma C10_constructor_witness :
  query_ (query_ctor (txt "WHERE n = 'a\b'")) = txt "WHERE n = ''a\\b''".
Proof.
  refine (eq_trans (proj2 (proj2 (proj2
    (C10_constructor_escapes_c_string (txt "WHERE n = 'a\b'")))) _) _).
  - repeat constructor; discriminate.
  - reflexivity.
Defined.

(** C10 as stated fails on a string with a NUL byte: the constructor
    reads [s.c_str()] as a C string, so the quote after the NUL is
    dropped, not doubled. *)
Lemma C10_embedded_nul_counterexample :
  query_ (query_ctor ["a"; NUL; quote]) = ["a"]
  /\ escape ["a"; NUL; quote] = ["a"; NUL; quote; quote]
  /\ query_ (query_ctor ["a"; NUL; quote]) <> escape ["a"; NUL; quote].
Proof. repeat split; try reflexivity. discriminate. Qed.

(** ** execute *)

Lemma escape_no_nul (s : list ascii) :
  Forall (fun c => c <> NUL) s -> Forall (fun c => c <> NUL) (escape s).
Proof.
  induction 1 as [|c s Hc _ IH]; [constructor|].
  unfold escape in *. cbn [flat_map].
  destruct (Ascii.eqb c quote || Ascii.eqb c backslash); repeat constructor; assumption.
Qed.

(** Raw text and bindings never put a NUL byte into the text. *)
Lemma appends_no_nul (q : query) (a : append) :
  match a with app_format _ => False | _ => True end ->
  Forall (fun c => c <> NUL) (query_ q) ->
  forall fuel q', do_append fuel q a = Some q' -> Forall (fun c => c <> NUL) (query_ q').
Proof.
  intros Ha Hq fuel q' Heq. destruct a as [[|mem] | names | f]; try contradiction;
    cbn [do_append] in Heq.
  - replace q' with (shl_text q nullptr) by congruence. exact Hq.
  - replace q' with (shl_text q (ptr mem)) by congruence.
    rewrite shl_text_spec. cbn [query_]. apply Forall_app. split; [assumption|].
    apply escape_no_nul, c_text_no_nul.
  - now replace q' with (bind q f) by congruence.
Qed.

(** C5.  [execute()] calls [execute_impl] with the C string of the whole
    text accumulated and with the whole binding list, in order, and leaves
    the builder with an empty text and an empty binding list: whatever is
    appended afterwards builds the same state as on a builder that never
    held anything, so the next [execute()] hands over nothing of the
    earlier query.  The driver, reading its argument as a C string, reads
    the whole text when the text holds no NUL byte. *)
Theorem C5_execute_hands_over_and_clears {C : Type} `{driver C} (q : query) :
  fst (execute q) = execute_impl (c_str (query_ q)) (bind_ q)
  /\ c_str (query_ q) = ptr (query_ q ++ [NUL])
  /\ (Forall (fun c => c <> NUL) (query_ q) -> c_text (query_ q ++ [NUL]) = query_ q)
  /\ query_ (snd (execute q)) = []
  /\ bind_ (snd (execute q)) = []
  /\ (forall fuel l, do_appends fuel (snd (execute q)) l = do_appends fuel query_init l)
  /\ (forall fuel l q0,
         fst <$> (execute <$> do_appends fuel (snd (execute q)) l)
         = fst <$> (execute <$> do_appends fuel (snd (execute q0)) l)).
Proof.
  repeat split.
  intros Hq. now rewrite c_text_terminated, c_text_id.
Qed.

Lemma C5_execute_witness :
  execute (bind_int (shl_text query_init (ptr (txt "SELECT ?"))) [] 7)
  = ((ptr (txt "SELECT ?" ++ [NUL]), [field_int 7 []]), query_init)
  /\ c_text (txt "SELECT ?" ++ [NUL]) = txt "SELECT ?".
Proof.
  pose proof (C5_execute_hands_over_and_clears (H := echo_driver)
                (bind_int (shl_text query_init (ptr (txt "SELECT ?"))) [] 7))
    as (Hcall & _ & Hread & Htext & Hbind & _).
  split.
  - reflexivity.
  - apply Hread. repeat constructor; discriminate.
Defined.

(** ** Rows *)

Lemma text_eqb_eq (a b : list ascii) : text_eqb a b = true <-> a = b.
Proof.
  revert b. induction a as [|x a IH]; intros [|y b]; simpl; split;
    try discriminate; try reflexivity.
  - intros [Hx Hab]%andb_true_iff. apply Ascii.eqb_eq in Hx.
    apply IH in Hab. now subst.
  - intros [= -> ->]. rewrite Ascii.eqb_refl. now apply IH.
Qed.

Lemma name_is_eq (f : field_type) (mem : list ascii) :
  name_is f (ptr mem) = true <-> name_ f = c_text mem.
Proof. apply text_eqb_eq. Qed.

Lemma row_at_deref (r : row) (idx : nat) :
  deref r (row_at r idx) = Some (nth idx r invalid).
Proof.
  unfold row_at. destruct (Nat.ltb_spec idx (length r)) as [Hlt|Hge]; simpl.
  - now apply nth_error_nth'.
  - now rewrite nth_overflow.
Qed.

Lemma row_scan_found (mem : list ascii) (r : row) :
  forall base idx,
    first_named r (c_text mem) idx ->
    row_scan r (ptr mem) base = ref_elem (base + idx).
Proof.
  induction r as [|f r IH]; intros base idx [[g [Hg Hname]] Hmin].
  - now destruct idx.
  - destruct idx as [|idx]; simpl in *.
    + injection Hg as ->. apply name_is_eq in Hname. simpl in Hname.
      rewrite Hname. now rewrite Nat.add_0_r.
    + destruct (text_eqb (name_ f) (c_text mem)) eqn:Hf.
      * apply text_eqb_eq in Hf. exfalso.
        apply (Hmin 0%nat f); [lia | reflexivity | assumption].
      * rewrite (IH (S base) idx); [f_equal; lia|].
        split; [now exists g|].
        intros j h Hj Hh. apply (Hmin (S j) h); [lia | exact Hh].
Qed.

Lemma row_scan_absent (mem : list ascii) (r : row) :
  forall base,
    (forall f, In f r -> name_ f <> c_text mem) ->
    row_scan r (ptr mem) base = ref_invalid.
Proof.
  induction r as [|f r IH]; intros base Hno; simpl; [reflexivity|].
  destruct (text_eqb (name_ f) (c_text mem)) eqn:Hf.
  - apply text_eqb_eq in Hf. exfalso. apply (Hno f); [now left | assumption].
  - apply IH. intros g Hg. apply Hno. now right.
Qed.

Lemma row_scan_in_range (colname : char_ptr) (r : row) :
  forall base,
    row_scan r colname base = ref_invalid
    \/ exists j f, row_scan r colname base = ref_elem (base + j)
                   /\ nth_error r j = Some f /\ name_is f colname = true.
Proof.
  induction r as [|f r IH]; intros base; simpl; [now left|].
  destruct (name_is f colname) eqn:Hf.
  - right. exists 0%nat, f. now rewrite Nat.add_0_r.
  - destruct (IH (S base)) as [Hi | (j & g & Hj & Hg & Hn)]; [now left|].
    right. exists (S j), g. rewrite Hj. repeat split; try assumption.
    f_equal. lia.
Qed.

(** C7.  [r[idx]] refers to the [idx]-th field when [idx < r.size()] and
    to the shared invalid field otherwise; [r[name]] refers to the first
    field named [name] and to the same invalid field when there is none
    (or when [name] is a null pointer); neither ever refers outside the
    row; so [r[name]] and [r[idx]] are the same reference when [idx] is the
    position of the first field named [name]. *)
Theorem C7_row_lookup (r : row) (idx : nat) (mem : list ascii) :
  deref r (row_at r idx) = Some (nth idx r invalid)
  /\ ((idx < length r)%nat -> row_at r idx = ref_elem idx)
  /\ ((length r <= idx)%nat -> row_at r idx = ref_invalid)
  /\ (first_named r (c_text mem) idx ->
      row_named r (ptr mem) = ref_elem idx
      /\ row_named r (ptr mem) = row_at r idx
      /\ deref r (row_named r (ptr mem)) = nth_error r idx)
  /\ ((forall f, In f r -> name_ f <> c_text mem) ->
      row_named r (ptr mem) = ref_invalid)
  /\ row_named r nullptr = ref_invalid
  /\ (exists f, deref r (row_named r (ptr mem)) = Some f).
Proof.
  split; [apply row_at_deref|].
  split; [intros Hlt; unfold row_at; now destruct (Nat.ltb_spec idx (length r)); [|lia]|].
  split; [intros Hge; unfold row_at; now destruct (Nat.ltb_spec idx (length r)); [lia|]|].
  split.
  { intros Hfirst. unfold row_named.
    rewrite (row_scan_found mem r 0 idx Hfirst). simpl.
    destruct Hfirst as [[f [Hf _]] _].
    assert (Hlt : (idx < length r)%nat) by (apply nth_error_Some; congruence).
    unfold row_at. destruct (Nat.ltb_spec idx (length r)); [auto | lia]. }
  split; [intros Hno; now apply row_scan_absent|].
  split.
  { unfold row_named. generalize 0%nat. induction r as [|f r IH]; intros n; simpl; auto. }
  unfold row_named.
  destruct (row_scan_in_range (ptr mem) r 0) as [-> | (j & f & -> & Hf & _)]; simpl.
  - now exists invalid.
  - now exists f.
Qed.

Lemma C7_row_lookup_witness :
  row_named [field_int 7 (txt "id"); field_text (txt "ann") (txt "name");
             field_null (txt "name")] (ptr (txt "name"))
  = row_at [field_int 7 (txt "id"); field_text (txt "ann") (txt "name");
            field_null (txt "name")] 1.
Proof.
  refine (proj1 (proj2 (proj1 (proj2 (proj2 (proj2
    (C7_row_lookup
       [field_int 7 (txt "id"); field_text (txt "ann") (txt "name");
        field_null (txt "name")] 1 (txt "name"))))) _))).
  split.
  - eexists. split; reflexivity.
  - intros j f Hj Hf. assert (j = 0%nat) as -> by lia.
    injection Hf as <-. discriminate.
Defined.

(** ** Cursors *)

Lemma row_eqb_nil : row_eqb [] [] = true.
Proof. reflexivity. Qed.

(** C8.  When the first [next()] after [first()] gives the empty row,
    [begin()] rewinds the statement, pulls once from that same statement
    and holds the empty row; [end()] holds the empty row too and observes
    no statement; the two iterators compare equal. *)
Theorem C8_begin_is_end_on_empty_result {S : Type} `{statement S}
    (c : cursor) (h : store S) (l : nat) (s : S) :
  cur_stmt_ c = Some l ->
  h !! l = Some s ->
  fst (next (first s)) = [] ->
  exists it h',
    cursor_begin c h = Some (it, h')
    /\ h' = <[l := snd (next (first s))]> h
    /\ row_ it = []
    /\ it_stmt_ it = Some l
    /\ row_ (fst (cursor_end c h')) = []
    /\ it_stmt_ (fst (cursor_end c h')) = None
    /\ snd (cursor_end c h') = h'
    /\ iterator_eqb it (fst (cursor_end c h')) = true.
Proof.
  intros Hc Hl Hempty.
  unfold cursor_begin, cursor_end, iterator_ctor, iterator_next. rewrite Hc, Hl. simpl.
  rewrite lookup_insert_eq.
  destruct (next (first s)) as [r s'] eqn:Hn. simpl in Hempty. subst r.
  do 2 eexists. split; [reflexivity|]. simpl.
  rewrite insert_insert_eq. repeat split; reflexivity.
Qed.

Lemma C8_begin_is_end_witness :
  exists it h',
    cursor_begin (mk_cursor (Some 0%nat))
      ({[ 0%nat := mk_rows_statement [] 3 ]} : store rows_statement) = Some (it, h')
    /\ iterator_eqb it (fst (cursor_end (mk_cursor (Some 0%nat)) h')) = true.
Proof.
  destruct (C8_begin_is_end_on_empty_result (H := rows_statement_statement)
              (mk_cursor (Some 0%nat))
              ({[ 0%nat := mk_rows_statement [] 3 ]} : store rows_statement)
              0%nat (mk_rows_statement [] 3) eq_refl
              (lookup_singleton_eq 0%nat (mk_rows_statement [] 3)) eq_refl)
    as (it & h' & Hb & _ & _ & _ & _ & _ & _ & He).
  exists it, h'. split; assumption.
Defined.

(** ** toString *)

Lemma toString_payload (fmt_double : float -> list ascii) (f g : field_type) :
  type_ f = type_ g -> int_ f = int_ g -> float_ f = float_ g -> str_ f = str_ g ->
  toString fmt_double f = toString fmt_double g.
Proof. unfold toString. intros -> -> -> ->. reflexivity. Qed.

Lemma toString_null (fmt_double : float -> list ascii) (name : list ascii) :
  toString fmt_double (field_null name) = txt "NULL".
Proof. reflexivity. Qed.

(** A byte of 16 or more prints as its two hexadecimal digits. *)
Lemma fmt_hex_two_digits (v : ascii) :
  (16 <= nat_of_ascii v)%nat ->
  fmt_hex (Z.land (char_to_int v) 255) = hex_byte v.
Proof.
  destruct v as [[] [] [] [] [] [] [] []]; intros Hv;
    try (vm_compute in Hv; lia); reflexivity.
Qed.

Lemma toString_blob_high_bytes (fmt_double : float -> list ascii) (b name : list ascii) :
  Forall (fun v => (16 <= nat_of_ascii v)%nat) b ->
  toString fmt_double (field_blob b name) = blob_hex_spec b.
Proof.
  intros Hb. unfold toString, blob_hex_spec. simpl type_. simpl str_.
  f_equal.
  induction Hb as [|v b Hv _ IH]; simpl; [reflexivity|].
  now rewrite (fmt_hex_two_digits v Hv), IH.
Qed.

(** C9 on the code.  [toString()] is a function of the payload and a
    NULL field renders as [NULL]; but a blob byte below 16 is written as
    one hexadecimal digit, not two: the bytes 01 0a render as [\x1a], the
    text that the single byte 1a renders as, where the hexadecimal
    encoding of the bytes is [\x010a]. *)
Theorem C9_blob_byte_below_16_prints_one_digit (fmt_double : float -> list ascii) :
  toString fmt_double (field_blob ["001"; "010"] []) = txt "\x1a"
  /\ toString fmt_double (field_blob ["026"] []) = txt "\x1a"
  /\ blob_hex_spec ["001"; "010"] = txt "\x010a"
  /\ toString fmt_double (field_blob ["001"; "010"] []) <> blob_hex_spec ["001"; "010"]
  /\ toString fmt_double (field_null []) = txt "NULL".
Proof. repeat split; try reflexivity. discriminate. Qed.

(** ** Scoped transactions *)

Section TransactionFacts.
Context {DB : Type}.
Variable run : DB -> list ascii -> bool * DB.

Lemma tr_commit_finished (t : transaction) (db : DB) :
  finished_ t = true -> tr_commit run t db = (true, t, db).
Proof. unfold tr_commit. now intros ->. Qed.

Lemma tr_rollback_finished (t : transaction) (db : DB) :
  finished_ t = true -> tr_rollback run t db = (true, t, db).
Proof. unfold tr_rollback. now intros ->. Qed.

Lemma tr_commit_open (t : transaction) (db : DB) :
  finished_ t = false ->
  tr_commit run t db
  = (fst (run db (txt "COMMIT;")), mk_transaction (fst (run db (txt "COMMIT;"))),
     snd (run db (txt "COMMIT;"))).
Proof. unfold tr_commit. intros ->. now destruct (run db (txt "COMMIT;")). Qed.

Lemma tr_rollback_open (t : transaction) (db : DB) :
  finished_ t = false ->
  tr_rollback run t db
  = (fst (run db (txt "ROLLBACK;")), mk_transaction (fst (run db (txt "ROLLBACK;"))),
     snd (run db (txt "ROLLBACK;"))).
Proof. unfold tr_rollback. intros ->. now destruct (run db (txt "ROLLBACK;")). Qed.

Lemma tr_ctor_spec (db : DB) :
  tr_ctor run db
  = (mk_transaction (negb (fst (run db (txt "BEGIN;")))), snd (run db (txt "BEGIN;"))).
Proof. unfold tr_ctor, tr_begin. now destruct (run db (txt "BEGIN;")). Qed.
End TransactionFacts.

(** C4, as the code has it, for any native connection [run].
    Construction runs BEGIN and the transaction is finished exactly when
    BEGIN failed.  On a finished transaction [commit()], [rollback()] and
    the destructor run no command and report success.  On an unfinished
    one [commit()] runs COMMIT, [rollback()] and the destructor run
    ROLLBACK; the call returns whether the command succeeded and the
    transaction is finished exactly when it did.  So after a commit that
    succeeded, a second commit or a rollback is a no-op that returns
    true. *)
Theorem C4_transaction_finishes_on_success {DB : Type}
    (run : DB -> list ascii -> bool * DB) (t : transaction) (db : DB) :
  (finished_ (fst (tr_ctor run db)) = negb (fst (run db (txt "BEGIN;")))
   /\ snd (tr_ctor run db) = snd (run db (txt "BEGIN;")))
  /\ (finished_ t = true ->
      tr_commit run t db = (true, t, db)
      /\ tr_rollback run t db = (true, t, db)
      /\ tr_dtor run t db = db)
  /\ (finished_ t = false ->
      tr_commit run t db
      = (fst (run db (txt "COMMIT;")), mk_transaction (fst (run db (txt "COMMIT;"))),
         snd (run db (txt "COMMIT;")))
      /\ tr_rollback run t db
         = (fst (run db (txt "ROLLBACK;")), mk_transaction (fst (run db (txt "ROLLBACK;"))),
            snd (run db (txt "ROLLBACK;")))
      /\ tr_dtor run t db = snd (run db (txt "ROLLBACK;")))
  /\ (forall t' db',
        tr_commit run t db = (true, t', db') ->
        tr_commit run t' db' = (true, t', db')
        /\ tr_rollback run t' db' = (true, t', db')
        /\ tr_dtor run t' db' = db').
Proof.
  split; [rewrite tr_ctor_spec; split; reflexivity|].
  split.
  { intros Hf. unfold tr_dtor.
    rewrite (tr_commit_finished run t db Hf), (tr_rollback_finished run t db Hf). auto. }
  split.
  { intros Hf. unfold tr_dtor.
    rewrite (tr_commit_open run t db Hf), (tr_rollback_open run t db Hf). auto. }
  intros t' db' Hc.
  assert (Hf : finished_ t' = true).
  { destruct (finished_ t) eqn:Ht.
    - rewrite (tr_commit_finished run t db Ht) in Hc. injection Hc as <- <-. exact Ht.
    - rewrite (tr_commit_open run t db Ht) in Hc. injection Hc as Hok <- <-. exact Hok. }
  unfold tr_dtor.
  rewrite (tr_commit_finished run t' db' Hf), (tr_rollback_finished run t' db' Hf). auto.
Qed.

(** A connection on which BEGIN succeeds and the first COMMIT succeeds:
    the second commit and the rollback send nothing more. *)
Lemma C4_commit_twice_witness :
  let db1 := snd (mysqlxx.ctor (mk_native [0%Z; 0%Z] [])) in
  let t1 := snd (fst (mysqlxx.commit (fst (mysqlxx.ctor (mk_native [0%Z; 0%Z] []))) db1)) in
  let db2 := snd (mysqlxx.commit (fst (mysqlxx.ctor (mk_native [0%Z; 0%Z] []))) db1) in
  mysqlxx.commit t1 db2 = (true, t1, db2)
  /\ mysqlxx.rollback t1 db2 = (true, t1, db2)
  /\ mysqlxx.dtor t1 db2 = db2.
Proof.
  exact (proj2 (proj2 (proj2
    (C4_transaction_finishes_on_success mysqlxx.run
       (fst (mysqlxx.ctor (mk_native [0%Z; 0%Z] [])))
       (snd (mysqlxx.ctor (mk_native [0%Z; 0%Z] []))))))
    _ _ eq_refl).
Defined.

(** C4 as stated fails when COMMIT itself fails: the transaction is not
    marked finished, [commit()] returns false, and a second [commit()]
    sends COMMIT again. *)
Lemma C4_failed_commit_counterexample :
  let db0 : mysqlxx.MYSQL := mk_native [0%Z; 1%Z; 0%Z] [] in
  let '(t1, db1) := mysqlxx.ctor db0 in
  let '(ok2, t2, db2) := mysqlxx.commit t1 db1 in
  let '(ok3, t3, db3) := mysqlxx.commit t2 db2 in
  finished_ t1 = false
  /\ ok2 = false /\ finished_ t2 = false
  /\ sent db2 = [txt "BEGIN;"; txt "COMMIT;"]
  /\ ok3 = true /\ finished_ t3 = true
  /\ sent db3 = [txt "BEGIN;"; txt "COMMIT;"; txt "COMMIT;"].
Proof. vm_compute. repeat split. Qed.

(** ** Result-producing queries *)

Lemma is_word_tolower (c : ascii) : is_word (tolower c) = is_word c.
Proof. destruct c as [[] [] [] [] [] [] [] []]; reflexivity. Qed.

Lemma ieq_open (x : ascii) : ieq x "(" = Ascii.eqb x "(".
Proof. destruct x as [[] [] [] [] [] [] [] []]; reflexivity. Qed.

Lemma ieq_close (x : ascii) : ieq x ")" = Ascii.eqb x ")".
Proof. destruct x as [[] [] [] [] [] [] [] []]; reflexivity. Qed.

Lemma ieq_tolower (x c : ascii) : ieq x c = true <-> tolower x = tolower c.
Proof. unfold ieq. apply Ascii.eqb_eq. Qed.

Lemma prev_of_nil (prev : option ascii) : prev_of prev [] = prev.
Proof. reflexivity. Qed.

Lemma prev_of_cons (prev : option ascii) (x : ascii) (w : list ascii) :
  prev_of prev (x :: w) = prev_of (Some x) w.
Proof. unfold prev_of. rewrite last_cons. now destruct (last w). Qed.

Lemma prev_of_none (pre : list ascii) : prev_of None pre = last pre.
Proof. unfold prev_of. now destruct (last pre). Qed.

Lemma re_lit_match (kw : list ascii) :
  forall prev inp k,
    re_match (fold_right (fun c r => re_seq (re_chr c) r) re_eps kw) prev inp k
    = match strip_icase kw prev inp with
      | Some (p, post) => k p post
      | None => false
      end.
Proof.
  induction kw as [|c kw IH]; intros prev inp k; simpl; [reflexivity|].
  destruct inp as [|x inp]; [reflexivity|].
  destruct (ieq x c); simpl; [apply IH | reflexivity].
Qed.

Lemma strip_icase_spec (kw : list ascii) :
  forall prev inp p post,
    strip_icase kw prev inp = Some (p, post)
    <-> exists w, inp = w ++ post /\ map tolower w = map tolower kw
                  /\ p = prev_of prev w.
Proof.
  induction kw as [|c kw IH]; intros prev inp p post; simpl.
  - split.
    + intros [= <- <-]. now exists [].
    + intros (w & -> & Hw & ->). destruct w; [reflexivity | discriminate].
  - destruct inp as [|x inp].
    + split; [discriminate|].
      intros (w & Hi & Hw & _). destruct w; discriminate.
    + destruct (ieq x c) eqn:Hx.
      * rewrite IH. apply ieq_tolower in Hx. split.
        -- intros (w & -> & Hw & ->). exists (x :: w). simpl.
           rewrite prev_of_cons, Hx, Hw. auto.
        -- intros (w & Hi & Hw & ->). destruct w as [|y w]; [discriminate|].
           simpl in Hi, Hw. injection Hi as <- ->. injection Hw as _ Hw.
           exists w. rewrite prev_of_cons. auto.
      * split; [discriminate|].
        intros (w & Hi & Hw & _). destruct w as [|y w]; [discriminate|].
        simpl in Hi, Hw. injection Hi as <- _. injection Hw as Hy _.
        apply ieq_tolower in Hy. congruence.
Qed.

Lemma same_word_first (kw w post : list ascii) :
  map tolower w = map tolower kw ->
  word_after kw = true -> word_after (w ++ post) = true.
Proof.
  destruct kw as [|c kw], w as [|x w]; simpl; try discriminate.
  intros [= Hx _] Hc. now rewrite <- is_word_tolower, Hx, is_word_tolower.
Qed.

Lemma same_word_last (kw : list ascii) :
  forall w prev,
    map tolower w = map tolower kw ->
    word_before (last kw) = true -> word_before (prev_of prev w) = true.
Proof.
  induction kw as [|c kw IH]; intros w prev Hw Hk; [discriminate|].
  destruct w as [|x w]; [discriminate|].
  simpl in Hw. injection Hw as Hx Hw. rewrite prev_of_cons.
  destruct kw as [|c' kw].
  - destruct w; [|discriminate]. simpl in *.
    now rewrite <- is_word_tolower, Hx, is_word_tolower.
  - apply IH; [assumption|]. now rewrite last_cons_cons in Hk.
Qed.

Lemma re_keyword_match (kw : string) (prev : option ascii) (inp : list ascii)
    (k : option ascii -> list ascii -> bool) :
  re_match (re_keyword kw) prev inp k
  = xorb (word_before prev) (word_after inp)
    && match strip_icase (txt kw) prev inp with
       | Some (p, post) => xorb (word_before p) (word_after post) && k p post
       | None => false
       end.
Proof.
  unfold re_keyword, re_lit. cbn [re_match]. now rewrite re_lit_match.
Qed.

Lemma keyword_here (kw : string) (k : option ascii -> list ascii -> bool)
    (prev : option ascii) (inp : list ascii) :
  kw_ok kw ->
  re_match (re_keyword kw) prev inp k = true
  <-> exists w post, inp = w ++ post /\ same_word w kw
                     /\ word_before prev = false /\ word_after post = false
                     /\ k (prev_of prev w) post = true.
Proof.
  intros [Hfirst Hlast]. rewrite re_keyword_match. split.
  - intros [Hb Hs]%andb_true_iff.
    destruct (strip_icase (txt kw) prev inp) as [[p post]|] eqn:Hstrip; [|discriminate].
    apply andb_true_iff in Hs as [Hb' Hk].
    apply strip_icase_spec in Hstrip as (w & -> & Hw & ->).
    rewrite (same_word_first _ _ post Hw Hfirst) in Hb.
    rewrite (same_word_last _ _ prev Hw Hlast) in Hb'.
    exists w, post. repeat split; try assumption.
    + now destruct (word_before prev).
    + now destruct (word_after post).
  - intros (w & post & -> & Hw & Hp & Ha & Hk).
    rewrite (same_word_first _ _ post Hw Hfirst), Hp. simpl.
    assert (Hs : strip_icase (txt kw) prev (w ++ post) = Some (prev_of prev w, post)).
    { apply strip_icase_spec. now exists w. }
    rewrite Hs, (same_word_last _ _ prev Hw Hlast), Ha, Hk. reflexivity.
Qed.

Lemma search_spec (r : regex) (inp : list ascii) :
  forall prev,
    re_search_from r prev inp = true
    <-> exists pre rest, inp = pre ++ rest
                         /\ re_match_here r (prev_of prev pre) rest = true.
Proof.
  induction inp as [|c inp IH]; intros prev; simpl.
  - rewrite orb_false_r. split.
    + intros Hm. now exists [], [].
    + intros (pre & rest & Hi & Hm).
      symmetry in Hi. apply app_eq_nil in Hi as [-> ->]. exact Hm.
  - rewrite orb_true_iff, IH. split.
    + intros [Hm | (pre & rest & -> & Hm)].
      * now exists [], (c :: inp).
      * exists (c :: pre), rest. now rewrite prev_of_cons.
    + intros (pre & rest & Hi & Hm). destruct pre as [|x pre].
      * left. simpl in Hi. now subst rest.
      * right. simpl in Hi. injection Hi as <- ->.
        exists pre, rest. now rewrite prev_of_cons in Hm.
Qed.

Lemma keyword_search (kw : string) (r : regex) (k : list ascii -> bool) (q : list ascii) :
  kw_ok kw ->
  (forall prev inp,
      re_match_here r prev inp
      = re_match (re_keyword kw) prev inp (fun _ post => k post)) ->
  re_search_from r None q = true
  <-> exists pre post, whole_word kw pre post q /\ k post = true.
Proof.
  intros Hok Hr. rewrite search_spec. split.
  - intros (pre & rest & -> & Hm). rewrite Hr in Hm.
    apply (keyword_here kw _ _ _ Hok) in Hm as (w & post & -> & Hw & Hp & Ha & Hk).
    rewrite prev_of_none in Hp.
    exists pre, post. split; [|assumption]. now exists w.
  - intros (pre & post & (w & -> & Hw & Hp & Ha) & Hk).
    exists pre, (w ++ post). split; [reflexivity|].
    rewrite Hr. apply (keyword_here kw _ _ _ Hok).
    exists w, post. rewrite prev_of_none. auto.
Qed.

Lemma not_closing_match (p : option ascii) (post : list ascii) :
  re_match re_not_closing p post (fun _ _ => true) = negb (closes_firstb post).
Proof.
  unfold re_not_closing. cbn [re_match]. rewrite andb_true_r. f_equal.
  revert p. induction post as [|x post IH]; intros p; [reflexivity|].
  cbn [closes_firstb]. rewrite <- (IH (Some x)). now rewrite andb_true_r.
Qed.

Lemma closes_firstb_spec (post : list ascii) :
  closes_firstb post = true <-> closes_first post.
Proof.
  split.
  - induction post as [|x post IH]; simpl; [discriminate|].
    rewrite ieq_open, ieq_close. intros [H | H]%orb_true_iff.
    + apply andb_true_iff in H as [Hx Hp]. destruct (IH Hp) as (a & b & -> & Ha).
      exists (x :: a), b. split; [reflexivity|]. constructor; [|assumption].
      intros ->. discriminate.
    + apply Ascii.eqb_eq in H as ->. exists [], post. split; [reflexivity | constructor].
  - intros (a & b & -> & Ha). induction Ha as [|x a Hx _ IH]; simpl.
    + now rewrite orb_true_r.
    + rewrite IH, ieq_open. destruct (Ascii.eqb_spec x "("); [contradiction | reflexivity].
Qed.

Lemma plain_keyword_search (kw : string) (q : list ascii) :
  kw_ok kw ->
  re_search_from (re_keyword kw) None q = true
  <-> exists pre post, whole_word kw pre post q.
Proof.
  intros Hok.
  rewrite (keyword_search kw (re_keyword kw) (fun _ => true) q Hok); [|reflexivity].
  split; [intros (pre & post & H & _) | intros (pre & post & H)]; eauto.
Qed.

Lemma guarded_keyword_search (kw : string) (q : list ascii) :
  kw_ok kw ->
  re_search_from (re_seq (re_keyword kw) re_not_closing) None q = true
  <-> exists pre post, whole_word kw pre post q /\ ~ closes_first post.
Proof.
  intros Hok.
  rewrite (keyword_search kw _ (fun post => negb (closes_firstb post)) q Hok).
  - split; intros (pre & post & Hw & Hc); exists pre, post; (split; [assumption|]).
    + rewrite <- closes_firstb_spec. now destruct (closes_firstb post).
    + rewrite <- closes_firstb_spec in Hc. now destruct (closes_firstb post).
  - intros prev inp. unfold re_match_here. cbn [re_match].
    rewrite !re_keyword_match. f_equal.
    destruct (strip_icase (txt kw) prev inp) as [[p post]|]; [|reflexivity].
    now rewrite not_closing_match.
Qed.

Lemma keywords_ok :
  kw_ok "DESC" /\ kw_ok "SHOW" /\ kw_ok "EXPLAIN" /\ kw_ok "DESCRIBE" /\ kw_ok "SELECT".
Proof. repeat split. Qed.

Lemma has_results_claimed_dec (q : list ascii) :
  has_results_claimed q
  <-> existsb (fun kw => re_search_from (re_seq (re_keyword kw) re_not_closing) None q)
        ["SELECT"; "DESC"; "SHOW"; "EXPLAIN"; "DESCRIBE"]%string = true.
Proof.
  destruct keywords_ok as (Hdesc & Hshow & Hexplain & Hdescribe & Hselect).
  unfold has_results_claimed. simpl existsb. rewrite !orb_true_iff.
  rewrite !guarded_keyword_search by assumption.
  split.
  - intros (kw & pre & post & Hin & Hw & Hc). simpl in Hin.
    destruct Hin as [<- | [<- | [<- | [<- | [<- | []]]]]]; eauto 12.
  - intros [(pre & post & Hw & Hc) | [(pre & post & Hw & Hc) | [(pre & post & Hw & Hc)
            | [(pre & post & Hw & Hc) | [(pre & post & Hw & Hc) | Hf]]]]];
      try discriminate;
      eexists _, pre, post; (split; [|split; eassumption]); simpl; auto 12.
Qed.

(** C3, as the code has it.  A query is classified as result-producing
    exactly when DESC, SHOW, EXPLAIN or DESCRIBE stands in it as a whole
    word (in any case, anywhere, parentheses or not), or SELECT stands in
    it as a whole word that is not followed by a closing parenthesis
    before any opening one.  [SELECT * FROM t] and
    [INSERT INTO t(x) SELECT 1] are result-producing,
    [UPDATE t SET x=1] is not, and a SELECT closed by a parenthesis is
    not. *)
Theorem C3_has_results_keyword_rule (query : list ascii) :
  (query_has_results query = true <-> has_results_spec (c_text query))
  /\ query_has_results (txt "SELECT * FROM t") = true
  /\ query_has_results (txt "UPDATE t SET x=1") = false
  /\ query_has_results (txt "INSERT INTO t(x) SELECT 1") = true
  /\ query_has_results (txt "DELETE FROM t WHERE a IN (SELECT b FROM u)") = false.
Proof.
  split; [|repeat split; reflexivity].
  destruct keywords_ok as (Hdesc & Hshow & Hexplain & Hdescribe & Hselect).
  unfold query_has_results, expect_results, regex_search, has_results_spec.
  simpl existsb. rewrite !orb_true_iff.
  rewrite !plain_keyword_search by assumption.
  rewrite guarded_keyword_search by assumption.
  split.
  - intros [(pre & post & Hw) | [(pre & post & Hw) | [(pre & post & Hw)
            | [(pre & post & Hw) | [Hs | Hf]]]]]; try discriminate;
      try (left; eexists _, pre, post; split; [|eassumption]; simpl; auto 12; fail).
    now right.
  - intros [(kw & pre & post & Hin & Hw) | Hs].
    + simpl in Hin. destruct Hin as [<- | [<- | [<- | [<- | []]]]]; eauto 12.
    + auto 12.
Qed.

(** C3 as stated fails for the four keywords other than SELECT: the
    only keyword of [CREATE INDEX i ON t (a DESC)] is inside parentheses,
    and the query is classified as result-producing. *)
Lemma C3_keyword_in_parentheses_counterexample :
  query_has_results (txt "CREATE INDEX i ON t (a DESC)") = true
  /\ ~ has_results_claimed (c_text (txt "CREATE INDEX i ON t (a DESC)")).
Proof.
  split; [reflexivity|].
  rewrite has_results_claimed_dec. vm_compute. discriminate.
Qed.

(** ** Column-name templates *)

Lemma prefixb_spec (p l : list ascii) :
  prefixb p l = true <-> exists r, l = p ++ r.
Proof.
  revert l. induction p as [|x p IH]; intros l; simpl.
  - split; [intros _; now exists l | reflexivity].
  - destruct l as [|y l].
    + split; [discriminate | intros [r Hr]; discriminate].
    + rewrite andb_true_iff, IH. split.
      * intros [Hxy [r ->]]. apply Ascii.eqb_eq in Hxy as ->. now exists r.
      * intros [r [= -> ->]]. split; [apply Ascii.eqb_refl | now exists r].
Qed.

Lemma prefixb_app_same (p r : list ascii) : prefixb p (p ++ r) = true.
Proof. apply prefixb_spec. now exists r. Qed.

Lemma prefixb_app_l (p l1 l2 : list ascii) :
  prefixb p l1 = true -> prefixb p (l1 ++ l2) = true.
Proof.
  rewrite !prefixb_spec. intros [r ->]. exists (r ++ l2). now rewrite app_assoc.
Qed.

Lemma prefixb_app_cases (l1 : list ascii) :
  forall p l2,
    prefixb p (l1 ++ l2) = true ->
    prefixb p l1 = true
    \/ exists r, p = l1 ++ r /\ r <> [] /\ prefixb r l2 = true.
Proof.
  induction l1 as [|x l1 IH]; intros p l2 Hp.
  - destruct p as [|y p]; [now left|].
    right. exists (y :: p). repeat split; [discriminate | exact Hp].
  - destruct p as [|y p]; [now left|].
    simpl in Hp. apply andb_true_iff in Hp as [Hyx Hp].
    apply Ascii.eqb_eq in Hyx as ->.
    destruct (IH p l2 Hp) as [Hl | (r & -> & Hr & Hrl)].
    + left. simpl. now rewrite Ascii.eqb_refl.
    + right. now exists r.
Qed.

Lemma snoc_suffix (A r D : list ascii) (z : ascii) :
  A ++ r = D ++ [z] -> r <> [] -> exists D2, r = D2 ++ [z] /\ D = A ++ D2.
Proof.
  intros Heq Hr. destruct (exists_last Hr) as (r' & z' & ->).
  rewrite app_assoc in Heq. apply app_inj_tail in Heq as [<- <-]. now exists r'.
Qed.

Lemma uint_digits (d : Decimal.uint) :
  Forall (fun c => is_digit c = true)
    (list_ascii_of_string (DecimalString.NilEmpty.string_of_uint d)).
Proof. induction d; simpl; constructor; auto. Qed.

Lemma digits_are_digits (i : nat) : Forall (fun c => is_digit c = true) (digits i).
Proof.
  unfold digits, txt, DecimalString.NilZero.string_of_uint.
  destruct (Nat.to_uint i) eqn:Hd; try (rewrite <- Hd; apply uint_digits).
  repeat constructor.
Qed.

Lemma digit_not_open (c : ascii) : is_digit c = true -> Ascii.eqb "{" c = false.
Proof.
  intros Hc. destruct (Ascii.eqb_spec "{" c) as [<-|]; [discriminate | reflexivity].
Qed.

(** *** One pass, whatever the bound *)

Lemma rewrite_pass_bound (m : list ascii -> option (list ascii * nat)) (n : nat) :
  forall n' q,
    (length q <= n)%nat -> (length q <= n')%nat ->
    rewrite_pass n m q = rewrite_pass n' m q.
Proof.
  induction n as [|n IH]; intros n' q Hn Hn'.
  - destruct q; [|simpl in Hn; lia]. now destruct n'.
  - destruct n' as [|n'].
    + destruct q; [reflexivity | simpl in Hn'; lia].
    + destruct q as [|c q]; [reflexivity|]. simpl in *.
      destruct (m (c :: q)) as [[s len]|].
      * f_equal. apply IH; rewrite length_skipn; lia.
      * f_equal. apply IH; lia.
Qed.

Lemma rewrite_all_nil (m : list ascii -> option (list ascii * nat)) :
  rewrite_all m [] = [].
Proof. reflexivity. Qed.

Lemma rewrite_all_cons (m : list ascii -> option (list ascii * nat))
    (c : ascii) (q : list ascii) :
  rewrite_all m (c :: q)
  = match m (c :: q) with
    | Some (s, len) => s ++ rewrite_all m (skipn len q)
    | None => c :: rewrite_all m q
    end.
Proof.
  unfold rewrite_all. simpl.
  destruct (m (c :: q)) as [[s len]|]; [|reflexivity].
  f_equal. apply rewrite_pass_bound; rewrite length_skipn; lia.
Qed.

Lemma rewrite_all_skip (m : list ascii -> option (list ascii * nat)) (W Z : list ascii) :
  (forall w rest, In w W -> m (w :: rest) = None) ->
  rewrite_all m (W ++ Z) = W ++ rewrite_all m Z.
Proof.
  induction W as [|w W IH]; intros Hm; [reflexivity|].
  simpl. rewrite rewrite_all_cons, Hm by now left.
  f_equal. apply IH. intros w' rest Hw'. apply Hm. now right.
Qed.

Lemma rewrite_all_none (m : list ascii -> option (list ascii * nat)) (q : list ascii) :
  (forall q', m q' = None) -> rewrite_all m q = q.
Proof.
  intros Hm. induction q as [|c q IH]; [reflexivity|].
  now rewrite rewrite_all_cons, Hm, IH.
Qed.

(** *** Names and braces *)

Lemma name_ok_cons (c : ascii) (s : list ascii) :
  name_ok (c :: s) = true ->
  Ascii.eqb c "{" = false /\ Ascii.eqb c "}" = false
  /\ (is_digit c = true -> name_ok s = true).
Proof.
  unfold name_ok. simpl. intros [[Hc Hall]%andb_true_iff Hex]%andb_true_iff.
  apply negb_true_iff, orb_false_iff in Hc as [Ho Hc].
  repeat split; try assumption.
  intros Hd. rewrite Hd in Hex. simpl in Hex. now rewrite Hall, Hex.
Qed.

Lemma name_ok_no_open (s : list ascii) :
  name_ok s = true -> forall c, In c s -> Ascii.eqb "{" c = false.
Proof.
  unfold name_ok. intros [Hall _]%andb_true_iff c Hc.
  rewrite forallb_forall in Hall. specialize (Hall c Hc).
  apply negb_true_iff, orb_false_iff in Hall as [Ho _].
  now rewrite Ascii.eqb_sym.
Qed.

(** Digits and a closing brace never start a name. *)
Lemma digits_close_not_prefix (D2 : list ascii) :
  forall s Y,
    Forall (fun c => is_digit c = true) D2 ->
    name_ok s = true ->
    prefixb (D2 ++ ["}"]) (s ++ Y) = false.
Proof.
  induction D2 as [|d D2 IH]; intros s Y HD Hs.
  - destruct s as [|c s]; [discriminate|].
    apply name_ok_cons in Hs as (_ & Hc & _). cbn [app prefixb].
    now rewrite Ascii.eqb_sym, Hc.
  - destruct s as [|c s]; [discriminate|].
    apply name_ok_cons in Hs as (_ & _ & Hs). inversion HD as [|? ? Hd HD']; subst.
    cbn [app prefixb]. destruct (Ascii.eqb_spec d c) as [->|]; [|reflexivity].
    cbn [andb]. apply IH; auto.
Qed.

Section OnePattern.
Variable D : list ascii.
Hypothesis HD : Forall (fun c => is_digit c = true) D.
Variable s : list ascii.
Hypothesis Hs : name_ok s = true.

Local Abbreviation pat := ("{" :: D ++ ["}"]).

Lemma match_one_not_open (w : ascii) (rest : list ascii) :
  Ascii.eqb "{" w = false -> match_one pat s (w :: rest) = None.
Proof. unfold match_one. simpl. now intros ->. Qed.

Lemma find_skip_name (Y : list ascii) :
  find (s ++ Y) pat = option_map (plus (length s)) (find Y pat).
Proof.
  pose proof (name_ok_no_open s Hs) as Hno. clear Hs.
  induction s as [|c s' IH].
  - simpl. destruct (find Y pat); reflexivity.
  - cbn [app find]. cbn [prefixb]. rewrite (Hno c) by now left.
    cbn [andb]. rewrite IH by (intros c' Hc'; apply Hno; now right).
    destruct (find Y pat); reflexivity.
Qed.

(** Replacing the first occurrence by the name leaves no occurrence
    that starts before the end of the name. *)
Lemma first_occurrence (X : list ascii) :
  forall p,
    find X pat = Some p ->
    exists A B,
      X = A ++ pat ++ B /\ length A = p
      /\ (forall Y, find (A ++ s ++ Y) pat
                    = option_map (plus (p + length s)) (find Y pat))
      /\ subst_one pat s X = A ++ s ++ subst_one pat s B.
Proof.
  induction X as [|a X IH]; intros p Hp.
  - discriminate.
  - cbn [find] in Hp. destruct (prefixb pat (a :: X)) eqn:Hpre.
    + injection Hp as <-. apply prefixb_spec in Hpre as [B HB].
      exists [], B. split; [exact HB|]. split; [reflexivity|]. split.
      * intros Y. apply find_skip_name.
      * unfold subst_one. rewrite HB. cbn [app].
        rewrite rewrite_all_cons. unfold match_one at 1.
        change ("{" :: (D ++ ["}"]) ++ B) with (pat ++ B).
        rewrite prefixb_app_same. cbn [tl].
        now rewrite skipn_app, skipn_all, Nat.sub_diag.
    + destruct (find X pat) as [p'|] eqn:Hf; [|discriminate].
      injection Hp as <-.
      destruct (IH p' eq_refl) as (A & B & -> & <- & Hinert & Hsub).
      exists (a :: A), B. split; [reflexivity|]. split; [reflexivity|].
      assert (Hkey : forall Y, prefixb pat (a :: A ++ s ++ Y) = false).
      { intros Y. destruct (prefixb pat (a :: A ++ s ++ Y)) eqn:Hk; [|reflexivity].
        exfalso.
        destruct (prefixb_app_cases (a :: A) pat (s ++ Y) Hk)
          as [Hl | (r & Hr & Hne & Hrs)].
        - apply (prefixb_app_l _ _ (pat ++ B)) in Hl.
          rewrite <- app_comm_cons in Hl. congruence.
        - cbn [app] in Hr. injection Hr as _ Hr. symmetry in Hr.
          destruct (snoc_suffix A r D "}" Hr Hne) as (D2 & -> & HD2).
          rewrite (digits_close_not_prefix D2 s Y) in Hrs; [discriminate| |exact Hs].
          rewrite HD2 in HD. now apply Forall_app in HD as [_ HD']. }
      split.
      * intros Y. cbn [app find]. rewrite Hkey, Hinert.
        destruct (find Y pat); reflexivity.
      * unfold subst_one in *.
        rewrite rewrite_all_cons. unfold match_one at 1.
        rewrite Hpre. now rewrite Hsub.
Qed.

Lemma subst_one_absent (X : list ascii) :
  find X pat = None -> subst_one pat s X = X.
Proof.
  unfold subst_one. induction X as [|a X IH]; intros Hf; [reflexivity|].
  cbn [find] in Hf. destruct (prefixb pat (a :: X)) eqn:Hpre; [discriminate|].
  destruct (find X pat); [discriminate|].
  rewrite rewrite_all_cons. unfold match_one at 1. rewrite Hpre.
  now rewrite IH.
Qed.

(** The [while] loop ends and computes the one-pattern pass. *)
Lemma replace_while_spec (n : nat) :
  forall X P,
    (length X < n)%nat ->
    (forall Y, find (P ++ Y) pat = option_map (plus (length P)) (find Y pat)) ->
    replace_while n pat s (P ++ X) = Some (P ++ subst_one pat s X).
Proof.
  induction n as [|n IH]; intros X P Hn HP; [lia|].
  cbn [replace_while]. rewrite HP.
  destruct (find X pat) as [p|] eqn:Hf; cbn [option_map].
  - destruct (first_occurrence X p Hf) as (A & B & -> & <- & Hinert & Hsub).
    assert (Hrep : replace (P ++ A ++ pat ++ B) (length P + length A) (length pat) s
                   = (P ++ A ++ s) ++ B).
    { unfold replace.
      rewrite (app_assoc P A), <- length_app, firstn_app, firstn_all, Nat.sub_diag.
      cbn [firstn]. rewrite app_nil_r.
      rewrite (app_assoc (P ++ A) pat B), <- length_app, skipn_app, skipn_all,
        Nat.sub_diag. cbn [skipn app].
      now rewrite <- !app_assoc. }
    rewrite Hrep, IH.
    + rewrite Hsub. now rewrite <- !app_assoc.
    + rewrite !length_app in Hn. cbn [length] in Hn. lia.
    + intros Y. rewrite <- !app_assoc, HP, Hinert.
      rewrite !length_app. destruct (find Y pat); cbn [option_map]; f_equal; lia.
  - now rewrite (subst_one_absent X Hf).
Qed.

Lemma replace_while_total (n : nat) (X : list ascii) :
  (length X < n)%nat -> replace_while n pat s X = Some (subst_one pat s X).
Proof.
  intros Hn. apply (replace_while_spec n X [] Hn).
  intros Y. cbn [app length]. now destruct (find Y pat).
Qed.
End OnePattern.

(** *** All the names *)

Lemma match_placeholder_not_open (names : list (list ascii)) :
  forall i w rest,
    Ascii.eqb "{" w = false -> match_placeholder names i (w :: rest) = None.
Proof.
  induction names as [|s names IH]; intros i w rest Hw; [reflexivity|].
  cbn [match_placeholder]. unfold placeholder at 1. cbn [prefixb].
  rewrite Hw. cbn [andb]. now apply IH.
Qed.

Lemma match_placeholder_app (l1 l2 : list (list ascii)) :
  forall i q,
    match_placeholder (l1 ++ l2) i q
    = match match_placeholder l1 i q with
      | Some r => Some r
      | None => match_placeholder l2 (i + length l1) q
      end.
Proof.
  induction l1 as [|s l1 IH]; intros i q; cbn [app match_placeholder length].
  - now rewrite Nat.add_0_r.
  - destruct (prefixb (placeholder i) q); [reflexivity|].
    rewrite IH. now replace (S i + length l1)%nat with (i + S (length l1))%nat by lia.
Qed.

Lemma match_placeholder_some (names : list (list ascii)) :
  forall i q nm len,
    match_placeholder names i q = Some (nm, len) ->
    In nm names
    /\ exists j R, q = placeholder j ++ R /\ len = length (digits j ++ ["}"]).
Proof.
  induction names as [|s names IH]; intros i q nm len Hm; [discriminate|].
  cbn [match_placeholder] in Hm.
  destruct (prefixb (placeholder i) q) eqn:Hp.
  - injection Hm as <- <-. split; [now left|].
    apply prefixb_spec in Hp as [R ->]. now exists i, R.
  - destruct (IH _ _ _ _ Hm) as [Hin Hj]. split; [now right | exact Hj].
Qed.

Lemma skip_placeholder_tail (j : nat) (R : list ascii) :
  skipn (length (digits j ++ ["}"])) ((digits j ++ ["}"]) ++ R) = R.
Proof. now rewrite skipn_app, skipn_all, Nat.sub_diag. Qed.

Lemma placeholder_tail_not_open (j : nat) (w : ascii) :
  In w (digits j ++ ["}"]) -> Ascii.eqb "{" w = false.
Proof.
  intros [Hw | [<- | []]]%in_app_or; [|reflexivity].
  apply digit_not_open.
  pose proof (digits_are_digits j) as Hd. rewrite Forall_forall in Hd.
  apply Hd. now apply list_elem_of_In.
Qed.

Section Names.
Variable done : list (list ascii).
Hypothesis Hdone : Forall (fun s => name_ok s = true) done.
Variable s : list ascii.

Local Abbreviation m_done := (match_placeholder done 0).
Local Abbreviation m_next := (match_placeholder (done ++ [s]) 0).
Local Abbreviation k := (length done).

Lemma done_name_ok (nm : list ascii) : In nm done -> name_ok nm = true.
Proof.
  intros Hin. rewrite Forall_forall in Hdone. apply Hdone.
  now apply list_elem_of_In.
Qed.

(** Digits and a closing brace seen after the earlier names were put in
    were there before. *)
Lemma digits_close_preserved (W : list ascii) :
  forall q,
    Forall (fun c => is_digit c = true) W ->
    prefixb (W ++ ["}"]) (rewrite_all m_done q) = true ->
    prefixb (W ++ ["}"]) q = true.
Proof.
  induction W as [|d W IH]; intros q HW Hp.
  - destruct q as [|x q]; [discriminate Hp|].
    rewrite rewrite_all_cons in Hp.
    destruct (m_done (x :: q)) as [[nm len]|] eqn:Hm.
    + apply match_placeholder_some in Hm as [Hin _].
      now rewrite (digits_close_not_prefix [] nm _ HW (done_name_ok nm Hin)) in Hp.
    + cbn [app prefixb] in *. now destruct (Ascii.eqb "}" x).
  - destruct q as [|x q]; [discriminate Hp|].
    rewrite rewrite_all_cons in Hp.
    destruct (m_done (x :: q)) as [[nm len]|] eqn:Hm.
    + apply match_placeholder_some in Hm as [Hin _].
      now rewrite (digits_close_not_prefix (d :: W) nm _ HW (done_name_ok nm Hin)) in Hp.
    + cbn [app prefixb] in *. apply andb_true_iff in Hp as [-> Hp].
      apply IH in Hp; [exact Hp | now inversion HW].
Qed.

(** Putting in the next name after the earlier ones is the one pass
    with the next name added. *)
Lemma subst_one_step (n : nat) :
  forall q,
    (length q <= n)%nat ->
    subst_one (placeholder k) s (rewrite_all m_done q) = rewrite_all m_next q.
Proof.
  pose proof (digits_are_digits k) as Hk.
  induction n as [|n IH]; intros q Hn.
  { destruct q; [reflexivity | simpl in Hn; lia]. }
  destruct q as [|c q]; [reflexivity|].
  cbn [length] in Hn.
  rewrite !rewrite_all_cons, match_placeholder_app.
  destruct (m_done (c :: q)) as [[nm len]|] eqn:Hm.
  - apply match_placeholder_some in Hm as [Hin _].
    unfold subst_one. rewrite rewrite_all_skip.
    + f_equal. apply IH. rewrite length_skipn. lia.
    + intros w rest Hw. apply match_one_not_open.
      apply (name_ok_no_open nm (done_name_ok nm Hin) w Hw).
  - cbn [match_placeholder plus].
    destruct (prefixb (placeholder k) (c :: q)) eqn:Hp.
    + apply prefixb_spec in Hp as [R HR].
      unfold placeholder in HR at 1. cbn [app] in HR. injection HR as -> ->.
      rewrite skip_placeholder_tail.
      rewrite rewrite_all_skip
        by (intros w rest Hw; apply match_placeholder_not_open;
            now apply (placeholder_tail_not_open k)).
      unfold subst_one. rewrite rewrite_all_cons. unfold match_one at 1.
      change ("{" :: (digits k ++ ["}"]) ++ rewrite_all m_done R)
        with (placeholder k ++ rewrite_all m_done R).
      rewrite prefixb_app_same.
      change (tl (placeholder k)) with (digits k ++ ["}"]).
      rewrite skip_placeholder_tail. f_equal.
      apply IH. rewrite !length_app in Hn. lia.
    + unfold subst_one. rewrite rewrite_all_cons. unfold match_one at 1.
      destruct (prefixb (placeholder k) (c :: rewrite_all m_done q)) eqn:Hp'.
      * exfalso. unfold placeholder in Hp, Hp'. cbn [prefixb] in Hp, Hp'.
        apply andb_true_iff in Hp' as [Hc Hp'].
        rewrite Hc in Hp. cbn [andb] in Hp.
        apply digits_close_preserved in Hp'; [congruence | exact Hk].
      * f_equal. apply IH. lia.
Qed.
End Names.

Lemma subst_seq_expand (rest : list (list ascii)) :
  forall done q,
    Forall (fun s => name_ok s = true) (done ++ rest) ->
    subst_seq rest (length done) (rewrite_all (match_placeholder done 0) q)
    = rewrite_all (match_placeholder (done ++ rest) 0) q.
Proof.
  induction rest as [|s rest IH]; intros done q Hok.
  - now rewrite app_nil_r.
  - cbn [subst_seq].
    apply Forall_app in Hok as Hboth. destruct Hboth as [Hdone Hrest].
    inversion Hrest as [|? ? Hs Hrest']; subst.
    rewrite (subst_one_step done Hdone s (length q) q (Nat.le_refl _)).
    replace (S (length done)) with (length (done ++ [s]))
      by (rewrite length_app; simpl; lia).
    rewrite IH; rewrite <- app_assoc; [reflexivity | exact Hok].
Qed.

Lemma format_loop_spec (names : list (list ascii)) :
  forall i q,
    Forall (fun s => name_ok s = true) names ->
    exists fuel0, forall fuel,
        (fuel0 <= fuel)%nat -> format_loop fuel names i q = Some (subst_seq names i q).
Proof.
  induction names as [|s names IH]; intros i q Hok.
  - now exists 0%nat.
  - inversion Hok as [|? ? Hs Hok']; subst.
    destruct (IH (S i) (subst_one (placeholder i) s q) Hok') as [f1 Hf1].
    exists (Nat.max (S (length q)) f1). intros fuel Hfuel.
    cbn [format_loop subst_seq]. unfold placeholder at 1.
    rewrite (replace_while_total (digits i) (digits_are_digits i) s Hs fuel q) by lia.
    apply Hf1. lia.
Qed.

Lemma subst_seq_is_expand (names : list (list ascii)) (q : list ascii) :
  Forall (fun s => name_ok s = true) names ->
  subst_seq names 0 q = expand names q.
Proof.
  intros Hok. unfold expand.
  pose proof (subst_seq_expand names [] q Hok) as H.
  cbn [length app] in H. rewrite <- H.
  now rewrite rewrite_all_none.
Qed.

Lemma placeholder_no_mark (j : nat) :
  count_occ ascii_dec (placeholder j) "?" = 0%nat.
Proof.
  apply count_occ_not_In. unfold placeholder.
  intros [Hc | [Hd | [Hc | []]]%in_app_or]; try discriminate.
  pose proof (digits_are_digits j) as Hj. rewrite Forall_forall in Hj.
  apply list_elem_of_In, Hj in Hd. discriminate.
Qed.

(** The bind markers of the text are the bind markers of the result,
    when no name brings one. *)
Lemma expand_keeps_marks (names : list (list ascii)) (n : nat) :
  Forall (fun s => ~ In "?" s) names ->
  forall q,
    (length q <= n)%nat ->
    count_occ ascii_dec (expand names q) "?" = count_occ ascii_dec q "?".
Proof.
  intros Hnames. unfold expand.
  induction n as [|n IH]; intros q Hn.
  { destruct q; [reflexivity | simpl in Hn; lia]. }
  destruct q as [|c q]; [reflexivity|]. cbn [length] in Hn.
  rewrite rewrite_all_cons.
  destruct (match_placeholder names 0 (c :: q)) as [[nm len]|] eqn:Hm.
  - apply match_placeholder_some in Hm as [Hin (j & R & HR & ->)].
    rewrite HR, count_occ_app, count_occ_app, placeholder_no_mark.
    unfold placeholder in HR. cbn [app] in HR. injection HR as _ ->.
    rewrite skip_placeholder_tail.
    rewrite Forall_forall in Hnames.
    rewrite (proj1 (count_occ_not_In ascii_dec nm "?"))
      by now apply Hnames, list_elem_of_In.
    cbn [plus]. apply IH. rewrite !length_app in Hn. lia.
  - cbn [count_occ]. destruct (ascii_dec c "?"); [f_equal|]; apply IH; lia.
Qed.

(** C2, as the code has it.  When every name is free of braces and has
    a byte that is not a digit, the format append ends and leaves the text
    in which each placeholder [{0}] .. [{N-1}] of the accumulated text is
    replaced by its name, from left to right, the names put in as they
    are and every other byte kept; the bindings are untouched, and when no
    name holds a [?] the text has the [?] markers it had. *)
Theorem C2_format_replaces_placeholders (q : query) (names : list (list ascii)) :
  Forall (fun s => name_ok s = true) names ->
  (exists fuel0, forall fuel,
      (fuel0 <= fuel)%nat ->
      shl_format fuel q names = Some (mk_query (expand names (query_ q)) (bind_ q)))
  /\ (Forall (fun s => ~ In "?" s) names ->
      count_occ ascii_dec (expand names (query_ q)) "?"
      = count_occ ascii_dec (query_ q) "?").
Proof.
  intros Hok. split.
  - destruct (format_loop_spec names 0 (query_ q) Hok) as [fuel0 Hf].
    exists fuel0. intros fuel Hfuel. unfold shl_format.
    now rewrite (Hf fuel Hfuel), subst_seq_is_expand.
  - intros Hm. now apply (expand_keeps_marks names (length (query_ q))).
Qed.

Lemma C2_insert_template_witness :
  (exists fuel0, forall fuel,
      (fuel0 <= fuel)%nat ->
      shl_format fuel (mk_query (txt "INSERT INTO t ({0}, {1}) VALUES (?, ?)") [])
        [txt "a"; txt "b"]
      = Some (mk_query (txt "INSERT INTO t (a, b) VALUES (?, ?)") []))
  /\ shl_format 3 (mk_query (txt "INSERT INTO t ({0}, {1}) VALUES (?, ?)") [])
       [txt "a"; txt "b"]
     = Some (mk_query (txt "INSERT INTO t (a, b) VALUES (?, ?)") []).
Proof.
  split; [|reflexivity].
  exact (proj1 (C2_format_replaces_placeholders
                  (mk_query (txt "INSERT INTO t ({0}, {1}) VALUES (?, ?)") [])
                  [txt "a"; txt "b"]
                  ltac:(repeat constructor))).
Defined.

Lemma replace_while_self (fuel : nat) :
  replace_while fuel (placeholder 0) (placeholder 0) (placeholder 0) = None.
Proof. induction fuel as [|fuel IH]; [reflexivity | exact IH]. Qed.

(** C2 as stated fails for names that hold a placeholder.  A name that
    holds a later placeholder is rewritten in its turn: [{0}] ends as
    [n], not as its name [{1}].  A name that holds its own placeholder
    keeps the loop running for ever. *)
Lemma C2_name_with_placeholder_counterexample :
  (shl_format 8 (mk_query (txt "{0} {1}") []) [txt "{1}"; txt "n"]
   = Some (mk_query (txt "n n") [])
   /\ expand [txt "{1}"; txt "n"] (txt "{0} {1}") = txt "{1} n")
  /\ (forall fuel, shl_format fuel (mk_query (txt "{0}") []) [txt "{0}"] = None).
Proof.
  split; [split; reflexivity|].
  intros fuel. unfold shl_format. cbn [format_loop query_].
  change (txt "{0}") with (placeholder 0). now rewrite replace_while_self.
Qed.


(** ** The parameter-numbering loop (pqsqlxx.h) *)

Lemma find_char_skip (pre q : list ascii) :
  Forall (fun c => Ascii.eqb c "?" = false) pre ->
  pqsqlxx.find_char (pre ++ q) "?"
  = option_map (Nat.add (length pre)) (pqsqlxx.find_char q "?").
Proof.
  induction 1 as [|c pre Hc _ IH]; cbn [app pqsqlxx.find_char length].
  - now destruct (pqsqlxx.find_char q "?").
  - rewrite Hc, IH. now destruct (pqsqlxx.find_char q "?").
Qed.

Lemma digit_not_mark (c : ascii) : is_digit c = true -> Ascii.eqb c "?" = false.
Proof.
  intros Hc. destruct (Ascii.eqb_spec c "?") as [->|]; [discriminate | reflexivity].
Qed.

Lemma number_while_spec (q : list ascii) :
  forall pre cnt fuel,
    Forall (fun c => Ascii.eqb c "?" = false) pre ->
    (count_occ ascii_dec q "?" < fuel)%nat ->
    pqsqlxx.number_while fuel cnt (pre ++ q) = Some (pre ++ number_params cnt q).
Proof.
  induction q as [|c q IH]; intros pre cnt fuel Hpre Hfuel.
  - destruct fuel as [|fuel]; [cbn in Hfuel; lia|].
    cbn [pqsqlxx.number_while number_params]. rewrite find_char_skip by assumption.
    reflexivity.
  - cbn [number_params]. destruct (Ascii.eqb_spec c "?") as [->|Hc].
    + rewrite count_occ_cons_eq in Hfuel by reflexivity.
      destruct fuel as [|fuel]; [lia|].
      cbn [pqsqlxx.number_while]. rewrite find_char_skip by assumption.
      cbn [pqsqlxx.find_char option_map]. change (Ascii.eqb "?" "?") with true. cbn iota.
      cbn [option_map]. rewrite Nat.add_0_r.
      unfold replace. rewrite firstn_app, Nat.sub_diag, firstn_all, firstn_O, app_nil_r.
      rewrite skipn_app, skipn_all2 by lia.
      replace (length pre + 1 - length pre)%nat with 1%nat by lia.
      cbn [skipn app].
      specialize (IH (pre ++ "$" :: digits (S cnt)) (S cnt) fuel).
      rewrite <- !app_assoc in IH. cbn [app] in IH.
      apply IH; [|lia].
      apply Forall_app; split; [assumption|].
      constructor; [reflexivity|].
      eapply Forall_impl; [apply digits_are_digits | apply digit_not_mark].
    + rewrite count_occ_cons_neq in Hfuel by congruence.
      specialize (IH (pre ++ [c]) cnt fuel).
      rewrite <- !app_assoc in IH. cbn [app] in IH. apply IH; [|assumption].
      apply Forall_app; split; [assumption|].
      constructor; [|constructor]. now apply Ascii.eqb_neq.
Qed.

(** ** Statements of the three drivers *)















(** * Further properties of the code *)

(** ** Raw text *)

Lemma escape_cons (c : ascii) (s : list ascii) :
  escape (c :: s)
  = (if Ascii.eqb c quote || Ascii.eqb c backslash then [c; c] else [c]) ++ escape s.
Proof. reflexivity. Qed.

Lemma escape_inj (a : list ascii) : forall b, escape a = escape b -> a = b.
Proof.
  induction a as [|x a IH]; intros [|y b]; rewrite ?escape_cons.
  - reflexivity.
  - cbn [escape flat_map]. destruct (Ascii.eqb y quote || Ascii.eqb y backslash); discriminate.
  - cbn [escape flat_map]. destruct (Ascii.eqb x quote || Ascii.eqb x backslash); discriminate.
  - intros Heq.
    assert (x = y) as ->.
    { destruct (Ascii.eqb x quote || Ascii.eqb x backslash),
        (Ascii.eqb y quote || Ascii.eqb y backslash); now injection Heq. }
    f_equal. apply IH.
    destruct (Ascii.eqb y quote || Ascii.eqb y backslash); now injection Heq.
Qed.

(** X1.  Raw text loses nothing: two C strings that append the same
    text to a builder are the same C string. *)
Theorem X1_raw_text_is_injective (q : query) (a b : list ascii) :
  query_ (shl_text q (ptr a)) = query_ (shl_text q (ptr b)) ->
  c_text a = c_text b.
Proof.
  rewrite !shl_text_spec. cbn [query_]. intros Heq.
  apply app_inv_head in Heq. now apply escape_inj.
Qed.

Lemma X1_raw_text_witness : c_text (txt "it's") = c_text ("i" :: "t" :: "'" :: "s" :: NUL :: txt "dropped").
Proof.
  apply (X1_raw_text_is_injective query_init (txt "it's")
           ("i" :: "t" :: "'" :: "s" :: NUL :: txt "dropped")).
  reflexivity.
Defined.

Lemma c_text_app (a b : list ascii) :
  Forall (fun c => c <> NUL) a -> c_text (a ++ b) = a ++ c_text b.
Proof.
  induction 1 as [|c a Hc _ IH]; [reflexivity|].
  cbn [app c_text]. unfold is_nul. destruct (Ascii.eqb_spec c NUL); [contradiction|].
  now rewrite IH.
Qed.

(** X2.  Appending a literal in two pieces is appending it in one: for
    strings [a] without NUL byte and any [b], [q << a.c_str() << b.c_str()]
    leaves the builder as [q << (a + b).c_str()] does. *)
Theorem X2_raw_text_in_pieces (q : query) (a b : list ascii) :
  Forall (fun c => c <> NUL) a ->
  shl_text (shl_text q (c_str a)) (c_str b) = shl_text q (c_str (a ++ b)).
Proof.
  intros Ha. unfold c_str. rewrite !shl_text_spec. cbn [query_ bind_].
  rewrite !c_text_terminated, (c_text_app a b Ha), (c_text_id a Ha), escape_app.
  now rewrite app_assoc.
Qed.

Lemma X2_raw_text_in_pieces_witness :
  shl_text (shl_text query_init (c_str (txt "WHERE n = 'O"))) (c_str (txt "'Brien'"))
  = shl_text query_init (c_str (txt "WHERE n = 'O" ++ txt "'Brien'")).
Proof.
  apply (X2_raw_text_in_pieces query_init (txt "WHERE n = 'O") (txt "'Brien'")).
  repeat constructor; discriminate.
Defined.



(** ** Chains of appends *)

Lemma shl_text_bind_ (q : query) (text : char_ptr) :
  bind_ (shl_text q text) = bind_ q.
Proof. destruct text as [|mem]; [reflexivity | now rewrite shl_text_spec]. Qed.

Lemma shl_text_query_ (t : list ascii) (b b' : list field_type) (text : char_ptr) :
  query_ (shl_text (mk_query t b) text) = query_ (shl_text (mk_query t b') text).
Proof. destruct text as [|mem]; [reflexivity | now rewrite !shl_text_spec]. Qed.

Lemma query_eta (q : query) : q = mk_query (query_ q) (bind_ q).
Proof. now destruct q. Qed.

Lemma do_append_split (fuel : nat) (q q' : query) (a : append) :
  do_append fuel q a = Some q' ->
  bind_ q' = bind_ q ++ binds_of [a]
  /\ do_appends fuel (mk_query (query_ q) []) (texts_of [a])
     = Some (mk_query (query_ q') []).
Proof.
  destruct a as [text | names | f]; cbn [do_append binds_of texts_of do_appends].
  - intros [= <-]. rewrite shl_text_bind_, app_nil_r. split; [reflexivity|].
    rewrite (query_eta (shl_text (mk_query (query_ q) []) text)), shl_text_bind_.
    cbn [bind_]. do 2 f_equal. rewrite (query_eta q) at 2. apply shl_text_query_.
  - unfold shl_format. cbn [query_ bind_].
    destruct (format_loop fuel names 0 (query_ q)) as [t|]; [|discriminate].
    intros [= <-]. now rewrite app_nil_r.
  - intros [= <-]. now destruct q.
Qed.

(** X4.  Text and bindings do not mix: after any chain of appends the
    binding list is the old one followed by the bound fields in call
    order, and the text is the text that the chain without its binds
    builds. *)
Theorem X4_appends_keep_text_and_bindings_apart (fuel : nat) (l : list append) :
  forall q q',
    do_appends fuel q l = Some q' ->
    bind_ q' = bind_ q ++ binds_of l
    /\ do_appends fuel (mk_query (query_ q) []) (texts_of l)
       = Some (mk_query (query_ q') []).
Proof.
  induction l as [|a l IH]; intros q q' Hq.
  - injection Hq as <-. now rewrite app_nil_r.
  - cbn [do_appends] in Hq.
    destruct (do_append fuel q a) as [q1|] eqn:Ha; [|discriminate].
    destruct (do_append_split fuel q q1 a Ha) as [Hb Ht].
    destruct (IH q1 q' Hq) as [Hb' Ht'].
    split.
    + rewrite Hb', Hb. destruct a; cbn [binds_of]; now rewrite <- ?app_assoc, ?app_nil_r.
    + destruct a as [text | names | f]; cbn [texts_of do_appends] in *.
      * destruct (do_append fuel (mk_query (query_ q) []) (app_text text)); [|discriminate].
        now injection Ht as ->.
      * destruct (do_append fuel (mk_query (query_ q) []) (app_format names)); [|discriminate].
        now injection Ht as ->.
      * now injection Ht as ->.
Qed.

Lemma X4_appends_witness :
  bind_ (mk_query (txt "INSERT INTO t VALUES (?, ?)") [field_int 1 []; field_text (txt "a") []])
  = [] ++ binds_of [app_text (ptr (txt "INSERT INTO t VALUES (")); app_bind (field_int 1 []);
                    app_text (ptr (txt "?, ?)")); app_bind (field_text (txt "a") [])]
  /\ do_appends 1 (mk_query [] [])
       (texts_of [app_text (ptr (txt "INSERT INTO t VALUES (")); app_bind (field_int 1 []);
                  app_text (ptr (txt "?, ?)")); app_bind (field_text (txt "a") [])])
     = Some (mk_query (txt "INSERT INTO t VALUES (?, ?)") []).
Proof.
  exact (X4_appends_keep_text_and_bindings_apart 1
           [app_text (ptr (txt "INSERT INTO t VALUES (")); app_bind (field_int 1 []);
            app_text (ptr (txt "?, ?)")); app_bind (field_text (txt "a") [])]
           query_init _ eq_refl).
Defined.

(** ** Templates: edge cases *)

Lemma find_no_open (body q : list ascii) :
  ~ In "{" q -> find q ("{" :: body) = None.
Proof.
  induction q as [|c q IH]; intros Hno; [reflexivity|].
  cbn [find prefixb].
  destruct (Ascii.eqb_spec "{" c) as [<-|Hc]; [exfalso; apply Hno; now left|].
  cbn [andb]. rewrite IH; [reflexivity|]. intros Hin. apply Hno. now right.
Qed.

Lemma format_loop_no_open (names : list (list ascii)) :
  forall fuel i q,
    ~ In "{" q -> format_loop (S fuel) names i q = Some q.
Proof.
  induction names as [|s names IH]; intros fuel i q Hno; [reflexivity|].
  cbn [format_loop replace_while]. unfold placeholder at 1.
  rewrite (find_no_open _ q Hno). now apply IH.
Qed.

(** X5.  A text without an opening brace is left as it is by a format
    append, whatever the names are (braces and digits included); the loop
    ends at its first test for every name. *)
Theorem X5_format_without_placeholder (fuel : nat) (q : query) (names : list (list ascii)) :
  ~ In "{" (query_ q) ->
  shl_format (S fuel) q names = Some q.
Proof.
  intros Hno. unfold shl_format. rewrite (format_loop_no_open names fuel 0 _ Hno).
  now destruct q.
Qed.

Lemma X5_format_without_placeholder_witness :
  shl_format 1 (mk_query (txt "SELECT a FROM t WHERE b = ?") []) [txt "{0}"; txt "7}"]
  = Some (mk_query (txt "SELECT a FROM t WHERE b = ?") []).
Proof.
  apply (X5_format_without_placeholder 0
           (mk_query (txt "SELECT a FROM t WHERE b = ?") []) [txt "{0}"; txt "7}"]).
  cbn. intros H.
  repeat (destruct H as [H|H]; [discriminate H|]). exact H.
Defined.

(** Reading decimal digits back. *)
Lemma digits_value_uint (d : Decimal.uint) :
  forall acc : nat,
    pqsqlxx.digits_value
      (list_ascii_of_string (DecimalString.NilEmpty.string_of_uint d)) (Z.of_nat acc)
    = Z.of_nat (Nat.of_uint_acc d acc).
Proof.
  induction d; intros acc; cbn [DecimalString.NilEmpty.string_of_uint
                                  list_ascii_of_string pqsqlxx.digits_value
                                  Nat.of_uint_acc];
    try reflexivity;
    change (is_digit _) with true; cbn iota;
    rewrite <- IHd; f_equal; rewrite ?Nat.tail_mul_spec;
    match goal with
    | |- context [nat_of_ascii ?c] =>
        let v := eval vm_compute in (nat_of_ascii c) in
        change (nat_of_ascii c) with v
    end; lia.
Qed.

Lemma digits_value_digits (i : nat) : pqsqlxx.digits_value (digits i) 0 = Z.of_nat i.
Proof.
  rewrite <- (DecimalNat.Unsigned.of_to i) at 2.
  unfold digits, txt, DecimalString.NilZero.string_of_uint, Nat.of_uint.
  destruct (Nat.to_uint i) eqn:Hd; try (rewrite <- Hd; apply (digits_value_uint _ 0)).
  reflexivity.
Qed.

Lemma digits_inj (i j : nat) : digits i = digits j -> i = j.
Proof.
  intros Heq. apply Nat2Z.inj. now rewrite <- !digits_value_digits, Heq.
Qed.

Lemma digits_close_inj (D1 : list ascii) :
  forall D2 R,
    Forall (fun c => is_digit c = true) D1 ->
    Forall (fun c => is_digit c = true) D2 ->
    prefixb (D1 ++ ["}"]) (D2 ++ "}" :: R) = true -> D1 = D2.
Proof.
  induction D1 as [|d1 D1 IH]; intros [|d2 D2] R H1 H2 Hp; cbn [app prefixb] in Hp.
  - reflexivity.
  - apply andb_true_iff in Hp as [Hd _]. apply Ascii.eqb_eq in Hd as <-.
    inversion H2 as [|? ? Hd]. discriminate Hd.
  - apply andb_true_iff in Hp as [Hd _]. apply Ascii.eqb_eq in Hd as ->.
    inversion H1 as [|? ? Hd]. discriminate Hd.
  - apply andb_true_iff in Hp as [Hd Hp]. apply Ascii.eqb_eq in Hd as ->.
    f_equal. apply (IH D2 R); [now inversion H1 | now inversion H2 | exact Hp].
Qed.

Lemma placeholder_prefix_inj (i j : nat) (R : list ascii) :
  prefixb (placeholder j) (placeholder i ++ R) = true -> i = j.
Proof.
  unfold placeholder. cbn [app prefixb]. rewrite <- app_assoc. cbn [app].
  intros [_ Hp]%andb_true_iff.
  apply digits_close_inj in Hp; try apply digits_are_digits.
  symmetry. now apply digits_inj.
Qed.

Lemma match_placeholder_at (names : list (list ascii)) :
  forall k i R,
    match_placeholder names k (placeholder (k + i) ++ R)
    = match nth_error names i with
      | Some s => Some (s, length (digits (k + i) ++ ["}"]))
      | None => None
      end.
Proof.
  induction names as [|s names IH]; intros k i R; cbn [match_placeholder].
  - now destruct i.
  - destruct (prefixb (placeholder k) (placeholder (k + i) ++ R)) eqn:Hp.
    + apply placeholder_prefix_inj in Hp.
      assert (i = 0)%nat as -> by lia. now rewrite Nat.add_0_r.
    + destruct i as [|i].
      * rewrite Nat.add_0_r, prefixb_app_same in Hp. discriminate.
      * replace (k + S i)%nat with (S k + i)%nat by lia. apply IH.
Qed.

Lemma expand_placeholder (names : list (list ascii)) (i : nat) :
  expand names (placeholder i) = nth i names (placeholder i).
Proof.
  unfold expand.
  pose proof (match_placeholder_at names 0 i []) as Hm.
  rewrite app_nil_r in Hm. cbn [plus] in Hm.
  unfold placeholder at 1. rewrite rewrite_all_cons.
  change ("{" :: digits i ++ ["}"]) with (placeholder i). rewrite Hm.
  destruct (nth_error names i) as [s|] eqn:Hn.
  - rewrite skipn_all, rewrite_all_nil, app_nil_r.
    symmetry. now apply nth_error_nth.
  - rewrite <- (app_nil_r (digits i ++ ["}"])), rewrite_all_skip, rewrite_all_nil,
      app_nil_r.
    + symmetry. apply nth_overflow. now apply nth_error_None.
    + intros w rest Hw. apply match_placeholder_not_open.
      now apply (placeholder_tail_not_open i).
Qed.

(** X6.  Placeholders and names correspond by position: with names free
    of braces that each hold a non-digit byte, a format append on the text
    [{i}] gives the [i]-th name when [i < N], and leaves [{i}] standing
    when there is no [i]-th name. *)
Theorem X6_placeholder_selects_its_name (b : list field_type)
    (names : list (list ascii)) (i : nat) :
  Forall (fun s => name_ok s = true) names ->
  exists fuel0, forall fuel,
      (fuel0 <= fuel)%nat ->
      shl_format fuel (mk_query (placeholder i) b) names
      = Some (mk_query (nth i names (placeholder i)) b).
Proof.
  intros Hok.
  destruct (format_loop_spec names 0 (placeholder i) Hok) as [fuel0 Hf].
  exists fuel0. intros fuel Hfuel. unfold shl_format. cbn [query_ bind_].
  now rewrite (Hf fuel Hfuel), subst_seq_is_expand, expand_placeholder.
Qed.

Lemma X6_placeholder_witness :
  exists fuel0, forall fuel,
      (fuel0 <= fuel)%nat ->
      shl_format fuel (mk_query (placeholder 10) [])
        (map txt ["c0"; "c1"; "c2"; "c3"; "c4"; "c5"; "c6"; "c7"; "c8"; "c9"; "c10"]%string)
      = Some (mk_query (txt "c10") []).
Proof.
  exact (X6_placeholder_selects_its_name [] 
           (map txt ["c0"; "c1"; "c2"; "c3"; "c4"; "c5"; "c6"; "c7"; "c8"; "c9"; "c10"]%string)
           10 ltac:(repeat constructor)).
Defined.

(** ** Results and iteration *)

Lemma result_at_add (res : result_set) (r : row) (i : nat) :
  result_at (result_add res r) i
  = if (i <? length res)%nat then result_at res i
    else if (i =? length res)%nat then r else invalid_row.
Proof.
  unfold result_at, result_add. rewrite length_app. cbn [length].
  destruct (Nat.ltb_spec i (length res)) as [Hlt|Hge].
  - destruct (Nat.ltb_spec i (length res + 1)); [|lia]. now rewrite app_nth1.
  - destruct (Nat.eqb_spec i (length res)) as [->|Hne].
    + destruct (Nat.ltb_spec (length res) (length res + 1)); [|lia].
      now rewrite nth_middle.
    + now destruct (Nat.ltb_spec i (length res + 1)); [lia|].
Qed.

(** X7.  A result never fails a lookup: [res[i]] is the [i]-th row or,
    out of range, the empty row, and [res[i][j]] then always refers to a
    field, the invalid one when either index is out of range.
    [res += r] puts [r] at position [res.size()] and keeps every
    earlier row where it was. *)
Theorem X7_result_lookup_and_append (res : result_set) (r : row) (i j : nat) :
  deref (result_at res i) (row_at (result_at res i) j)
  = Some (nth j (nth i res invalid_row) invalid)
  /\ ((length res <= i)%nat ->
      deref (result_at res i) (row_at (result_at res i) j) = Some invalid)
  /\ result_at (result_add res r) (length res) = r
  /\ ((i < length res)%nat -> result_at (result_add res r) i = result_at res i)
  /\ length (result_add res r) = S (length res).
Proof.
  assert (Hat : result_at res i = nth i res invalid_row).
  { unfold result_at. destruct (Nat.ltb_spec i (length res)); [reflexivity|].
    now rewrite nth_overflow. }
  split; [now rewrite row_at_deref, Hat|].
  split.
  { intros Hge. rewrite row_at_deref, Hat, (nth_overflow res invalid_row Hge).
    now destruct j. }
  split.
  { rewrite result_at_add, Nat.ltb_irrefl. now rewrite Nat.eqb_refl. }
  split.
  { intros Hlt. rewrite result_at_add.
    now destruct (Nat.ltb_spec i (length res)); [|lia]. }
  unfold result_add. rewrite length_app. simpl. lia.
Qed.

Lemma X7_result_lookup_witness :
  deref (result_at [[field_int 1 (txt "a")]] 3) (row_at (result_at [[field_int 1 (txt "a")]] 3) 0)
  = Some invalid
  /\ result_at (result_add [[field_int 1 (txt "a")]] [field_null (txt "b")]) 0
     = result_at [[field_int 1 (txt "a")]] 0.
Proof.
  pose proof (X7_result_lookup_and_append [[field_int 1 (txt "a")]] [field_null (txt "b")] 3 0)
    as (_ & Hout & _).
  pose proof (X7_result_lookup_and_append [[field_int 1 (txt "a")]] [field_null (txt "b")] 0 0)
    as (_ & _ & _ & Hkeep & _).
  split; [apply Hout | apply Hkeep]; simpl; lia.
Defined.

Lemma row_eqb_empty (r : row) : row_eqb r [] = match r with [] => true | _ => false end.
Proof. now destruct r. Qed.

Lemma for_each_collect_spec {S : Type} `{statement S} (l : nat) (e : iterator) (fuel : nat) :
  row_ e = [] ->
  forall (it : iterator) (res : result_set) (h : store S) (s : S),
    it_stmt_ it = Some l ->
    h !! l = Some s ->
    for_each_collect fuel it e res h
    = match rows_until_empty fuel (row_ it) s with
      | Some (rs, s') => Some (res ++ rs, <[l := s']> h)
      | None => None
      end.
Proof.
  intros He. induction fuel as [|fuel IH]; intros it res h s Hit Hl; [reflexivity|].
  cbn [for_each_collect rows_until_empty]. unfold iterator_eqb.
  rewrite He, row_eqb_empty.
  destruct (row_ it) as [|f r] eqn:Hr.
  - now rewrite app_nil_r, insert_id.
  - unfold iterator_next. rewrite Hit, Hl.
    destruct (next s) as [r' s'] eqn:Hn.
    rewrite (IH _ _ _ s') by (try apply lookup_insert_eq; reflexivity).
    cbn [row_]. destruct (rows_until_empty fuel r' s') as [[rs s'']|]; [|reflexivity].
    unfold result_add. now rewrite insert_insert_eq, <- app_assoc.
Qed.

Lemma rows_until_empty_nonempty {S : Type} `{statement S} (fuel : nat) :
  forall (r : row) (s : S) rs s',
    rows_until_empty fuel r s = Some (rs, s') -> Forall (fun x => x <> []) rs.
Proof.
  induction fuel as [|fuel IH]; intros r s rs s' Hr; [discriminate|].
  cbn [rows_until_empty] in Hr. destruct r as [|f r]; [injection Hr as <- _; constructor|].
  destruct (next s) as [r' s1].
  destruct (rows_until_empty fuel r' s1) as [[rs1 s2]|] eqn:Hrec; [|discriminate].
  injection Hr as <- <-. constructor; [discriminate | eauto].
Qed.

(** X8.  Collecting a cursor with [std::for_each(begin(), end(), ...)]
    rewinds the statement, then gathers, in order, the rows that [next()]
    hands out up to the first empty row, which ends the loop: only the
    emptiness of a row decides, not its fields.  The statement is left
    just after that empty row, and every collected row has a field. *)
Theorem X8_collect_stops_at_first_empty_row {S : Type} `{statement S}
    (fuel : nat) (c : cursor) (h : store S) (l : nat) (s : S) :
  cur_stmt_ c = Some l ->
  h !! l = Some s ->
  collect fuel c h
  = match rows_until_empty fuel (fst (next (first s))) (snd (next (first s))) with
    | Some (rs, s') => Some (rs, <[l := s']> h)
    | None => None
    end
  /\ forall rs h', collect fuel c h = Some (rs, h') -> Forall (fun r => r <> []) rs.
Proof.
  intros Hc Hl.
  assert (Heq : collect fuel c h
                = match rows_until_empty fuel (fst (next (first s))) (snd (next (first s))) with
                  | Some (rs, s') => Some (rs, <[l := s']> h)
                  | None => None
                  end).
  { unfold collect, cursor_begin, cursor_end, iterator_ctor, iterator_next.
    rewrite Hc, Hl. cbn [it_stmt_]. rewrite lookup_insert_eq.
    destruct (next (first s)) as [r0 s0] eqn:Hn. cbn [fst snd].
    rewrite (for_each_collect_spec l (mk_iterator [] None) fuel eq_refl _ _ _ s0)
      by (try apply lookup_insert_eq; reflexivity).
    cbn [row_ app]. destruct (rows_until_empty fuel r0 s0) as [[rs s']|]; [|reflexivity].
    now rewrite !insert_insert_eq. }
  split; [exact Heq|].
  intros rs h' Hcol. rewrite Heq in Hcol.
  destruct (rows_until_empty fuel _ _) as [[rs1 s1]|] eqn:Hr; [|discriminate].
  injection Hcol as <- _. eapply rows_until_empty_nonempty, Hr.
Qed.

Lemma X8_collect_witness :
  collect 5 (mk_cursor (Some 0%nat))
    ({[ 0%nat := mk_rows_statement
                   [[field_int 1 (txt "a")]; [field_int 2 (txt "a")]; [];
                    [field_int 4 (txt "a")]] 9 ]} : store rows_statement)
  = Some ([[field_int 1 (txt "a")]; [field_int 2 (txt "a")]],
          <[ 0%nat := mk_rows_statement
                        [[field_int 1 (txt "a")]; [field_int 2 (txt "a")]; [];
                         [field_int 4 (txt "a")]] 3 ]>
            ({[ 0%nat := mk_rows_statement
                           [[field_int 1 (txt "a")]; [field_int 2 (txt "a")]; [];
                            [field_int 4 (txt "a")]] 9 ]} : store rows_statement)).
Proof.
  exact (proj1 (X8_collect_stops_at_first_empty_row (H := rows_statement_statement) 5
                  (mk_cursor (Some 0%nat)) _ 0%nat _ eq_refl
                  (lookup_singleton_eq 0%nat _))).
Defined.

(** X9.  Once the cursor is gone, so is the statement, and an iterator
    left behind observes nothing: advancing it changes neither the
    iterator nor the store, a new iterator on the same handle equals
    [end()], and a loop from an iterator that still holds a row never
    reaches [end()]. *)
Theorem X9_iterator_outliving_its_cursor {S : Type} `{statement S}
    (c : cursor) (h : store S) (l : nat) (it : iterator) :
  cur_stmt_ c = Some l ->
  it_stmt_ it = Some l ->
  let h' := cursor_dtor c h in
  iterator_next it h' = (it, h')
  /\ iterator_eqb (fst (iterator_ctor (Some l) h')) (fst (cursor_end c h')) = true
  /\ (row_ it <> [] ->
      forall fuel res, for_each_collect fuel it (fst (cursor_end c h')) res h' = None).
Proof.
  intros Hc Hit h'.
  assert (Hdead : h' !! l = None).
  { unfold h', cursor_dtor. rewrite Hc. apply lookup_delete_eq. }
  assert (Hnext : iterator_next it h' = (it, h')).
  { unfold iterator_next. now rewrite Hit, Hdead. }
  split; [exact Hnext|]. split.
  { unfold iterator_ctor, iterator_next. cbn [it_stmt_]. now rewrite Hdead. }
  intros Hrow fuel. induction fuel as [|fuel IH]; intros res; [reflexivity|].
  cbn [for_each_collect]. unfold iterator_eqb at 1.
  change (row_ (fst (cursor_end c h'))) with (@nil field_type).
  rewrite row_eqb_empty. destruct (row_ it) eqn:Hr; [contradiction|].
  rewrite Hnext. apply IH.
Qed.

Lemma X9_iterator_witness :
  for_each_collect (H := rows_statement_statement) 7
    (mk_iterator [field_int 1 (txt "a")] (Some 0%nat))
    (fst (cursor_end (mk_cursor (Some 0%nat))
            (cursor_dtor (mk_cursor (Some 0%nat))
               ({[ 0%nat := mk_rows_statement [] 0 ]} : store rows_statement))))
    []
    (cursor_dtor (mk_cursor (Some 0%nat))
       ({[ 0%nat := mk_rows_statement [] 0 ]} : store rows_statement))
  = None.
Proof.
  exact (proj2 (proj2 (X9_iterator_outliving_its_cursor (H := rows_statement_statement)
                         (mk_cursor (Some 0%nat))
                         ({[ 0%nat := mk_rows_statement [] 0 ]} : store rows_statement)
                         0%nat (mk_iterator [field_int 1 (txt "a")] (Some 0%nat))
                         eq_refl eq_refl))
           ltac:(discriminate) 7%nat []).
Defined.

(** ** Numbering the parameters (pqsqlxx.h) *)

(** X10.  [pq_build_query] numbers the parameters in one pass's worth of
    work: given more rounds than the query has question marks, the loop
    ends, and the [k]-th question mark from the left, wherever it stands,
    has become [$k] while every other character is kept. *)
Theorem X10_question_marks_are_numbered (fuel : nat) (q : list ascii) :
  (count_occ ascii_dec q "?" < fuel)%nat ->
  pqsqlxx.number_while fuel 0 q = Some (number_params 0 q).
Proof. intros Hfuel. exact (number_while_spec q [] 0 fuel ltac:(constructor) Hfuel). Qed.

Lemma X10_question_marks_witness :
  pqsqlxx.number_while 3 0 (txt "a=? AND b='?'") = Some (txt "a=$1 AND b='$2'").
Proof. exact (X10_question_marks_are_numbered 3 (txt "a=? AND b='?'") ltac:(vm_compute; lia)). Defined.

(** ** Cursor names (pqsqlxx.h) *)

(** The cursor that [execute_impl] hands to the statement is the one
    [pq_build_query] names. *)
Lemma pq_execute_impl_cursor (fmt_double : float -> list ascii) (shared : bool)
    (fuel : nat) (i : N) (conn_ok : bool) (query : list ascii)
    (binds : list field_type) (db : pqsqlxx.PGconn) s params j db' :
  pqsqlxx.execute_impl fmt_double shared fuel i conn_ok query binds db
  = Some (s, params, j, db') ->
  exists q cursor res,
    pqsqlxx.pq_build_query shared fuel i (c_text query) = Some (q, cursor, j)
    /\ s = pqsqlxx.statement_ctor conn_ok res cursor.
Proof.
  unfold pqsqlxx.execute_impl.
  destruct (pqsqlxx.pq_build_query shared fuel i (c_text query)) as [[[q cursor] i']|];
    [|discriminate].
  destruct (pqsqlxx.ctor db) as [tr db1].
  destruct (pqsqlxx.PQexec db1 q) as [res db2].
  destruct (pqsqlxx.is_command_ok res);
    [destruct (pqsqlxx.commit tr db2) as [[? ?] ?]|];
    intros [= <- _ <- _]; exists q, cursor, res; auto.
Qed.

(** A statement whose [fetch_next_] is longer than the bare command
    carries the cursor name after it. *)
Lemma pq_statement_names_cursor (conn_ok : bool) (res : option pqsqlxx.PGresult)
    (cursor : list ascii) :
  (length (txt "FETCH NEXT in ")
   < length (pqsqlxx.fetch_next_ (pqsqlxx.statement_ctor conn_ok res cursor)))%nat ->
  cursor <> []
  /\ pqsqlxx.fetch_next_ (pqsqlxx.statement_ctor conn_ok res cursor)
     = txt "FETCH NEXT in " ++ cursor
  /\ pqsqlxx.close_ (pqsqlxx.statement_ctor conn_ok res cursor) = txt "CLOSE " ++ cursor
  /\ pqsqlxx.move_first_ (pqsqlxx.statement_ctor conn_ok res cursor)
     = txt "MOVE BACKWARD ALL in " ++ cursor.
Proof.
  unfold pqsqlxx.statement_ctor.
  destruct res as [r|]; [|cbn; lia].
  destruct (pqsqlxx.classify (pqsqlxx.PQresultStatus r) conn_ok) as [rt [|]];
    [|cbn; lia].
  cbn [pqsqlxx.fetch_next_ pqsqlxx.close_ pqsqlxx.move_first_].
  intros Hlen. split; [|auto].
  intros ->. rewrite app_nil_r in Hlen. lia.
Qed.

(** X11.  Built with [USE_SHARED_CONNECTION], the driver names every
    cursor [cursor_1]: the counter is a fresh local at every call.  Any
    two statements that hold a cursor, whatever their queries,
    connections and counters, fetch from, rewind and close the same one. *)
Theorem X11_shared_build_reuses_one_cursor_name
    (fmt_double : float -> list ascii) (fuel1 fuel2 : nat) (i1 i2 : N)
    (ok1 ok2 : bool) (query1 query2 : list ascii) (binds1 binds2 : list field_type)
    (db1 db2 : pqsqlxx.PGconn) s1 p1 j1 d1 s2 p2 j2 d2 :
  pqsqlxx.execute_impl fmt_double true fuel1 i1 ok1 query1 binds1 db1
  = Some (s1, p1, j1, d1) ->
  pqsqlxx.execute_impl fmt_double true fuel2 i2 ok2 query2 binds2 db2
  = Some (s2, p2, j2, d2) ->
  (length (txt "FETCH NEXT in ") < length (pqsqlxx.fetch_next_ s1))%nat ->
  (length (txt "FETCH NEXT in ") < length (pqsqlxx.fetch_next_ s2))%nat ->
  pqsqlxx.fetch_next_ s1 = txt "FETCH NEXT in cursor_1"
  /\ pqsqlxx.fetch_next_ s2 = pqsqlxx.fetch_next_ s1
  /\ pqsqlxx.move_first_ s2 = pqsqlxx.move_first_ s1
  /\ pqsqlxx.close_ s2 = pqsqlxx.close_ s1.
Proof.
  intros H1 H2 L1 L2.
  apply pq_execute_impl_cursor in H1 as (q1 & c1 & res1 & B1 & ->).
  apply pq_execute_impl_cursor in H2 as (q2 & c2 & res2 & B2 & ->).
  apply pq_statement_names_cursor in L1 as (N1 & -> & -> & ->).
  apply pq_statement_names_cursor in L2 as (N2 & -> & -> & ->).
  assert (Hname : forall fuel i query q c j,
             pqsqlxx.pq_build_query true fuel i query = Some (q, c, j) ->
             c <> [] -> c = txt "cursor_1").
  { intros fuel i query q c j. unfold pqsqlxx.pq_build_query.
    destruct (pqsqlxx.number_while fuel 0 _) as [t|]; [|discriminate].
    destruct (query_has_results _); intros [= _ <- _]; [reflexivity | congruence]. }
  rewrite (Hname _ _ _ _ _ _ B1 N1), (Hname _ _ _ _ _ _ B2 N2). auto.
Qed.

Lemma X11_shared_build_witness :
  let s1 := pqsqlxx.statement_ctor true
              (Some (pqsqlxx.mk_PGresult pqsqlxx.PGRES_COMMAND_OK 0 [])) (txt "cursor_1") in
  let s2 := pqsqlxx.statement_ctor true
              (Some (pqsqlxx.mk_PGresult pqsqlxx.PGRES_COMMAND_OK 5 [])) (txt "cursor_1") in
  pqsqlxx.fetch_next_ s1 = txt "FETCH NEXT in cursor_1"
  /\ pqsqlxx.fetch_next_ s2 = pqsqlxx.fetch_next_ s1
  /\ pqsqlxx.move_first_ s2 = pqsqlxx.move_first_ s1
  /\ pqsqlxx.close_ s2 = pqsqlxx.close_ s1.
Proof.
  intros s1 s2.
  apply (X11_shared_build_reuses_one_cursor_name (fun _ => []) 1 2 0 7 true true
           (txt "SELECT a FROM t") (txt "SELECT b FROM u WHERE c = ?")
           [] [field_int 3 []]
           (mk_native [] [])
           (mk_native [None; Some (pqsqlxx.mk_PGresult pqsqlxx.PGRES_COMMAND_OK 5 [])] [])
           s1 [] 0%N
           (mk_native []
              [txt "BEGIN;";
               txt "DECLARE cursor_1 SCROLL CURSOR WITH HOLD FOR SELECT a FROM t;";
               txt "COMMIT;"])
           s2 [Some (txt "3")] 7%N
           (mk_native []
              [txt "BEGIN;";
               txt "DECLARE cursor_1 SCROLL CURSOR WITH HOLD FOR SELECT b FROM u WHERE c = $1;"]));
    [vm_compute; reflexivity | vm_compute; reflexivity | vm_compute; lia | vm_compute; lia].
Defined.

Lemma digitsN_inj (a b : N) : pqsqlxx.digitsN a = pqsqlxx.digitsN b -> a = b.
Proof.
  unfold pqsqlxx.digitsN, txt. intros Heq.
  apply (f_equal string_of_list_ascii) in Heq.
  rewrite !string_of_list_ascii_of_string in Heq.
  assert (Hnn : forall n : N, N.to_uint n <> Decimal.Nil).
  { intros [|p]; [discriminate | apply DecimalPos.Unsigned.to_uint_nonnil]. }
  apply DecimalN.Unsigned.to_uint_inj.
  pose proof (DecimalString.NilZero.usu _ (Hnn a)) as Ha.
  pose proof (DecimalString.NilZero.usu _ (Hnn b)) as Hb.
  rewrite Heq in Ha. congruence.
Qed.

(** X12.  Built without [USE_SHARED_CONNECTION], the counter is static:
    a statement that holds a cursor and the next one that does, run with
    the counter the first one left, never name the same cursor, also when
    the counter wraps. *)
Theorem X12_static_counter_gives_fresh_cursor_names
    (fmt_double : float -> list ascii) (fuel1 fuel2 : nat) (i : N)
    (ok1 ok2 : bool) (query1 query2 : list ascii) (binds1 binds2 : list field_type)
    (db1 db2 : pqsqlxx.PGconn) s1 p1 j d1 s2 p2 k d2 :
  pqsqlxx.execute_impl fmt_double false fuel1 i ok1 query1 binds1 db1
  = Some (s1, p1, j, d1) ->
  pqsqlxx.execute_impl fmt_double false fuel2 j ok2 query2 binds2 db2
  = Some (s2, p2, k, d2) ->
  (length (txt "FETCH NEXT in ") < length (pqsqlxx.fetch_next_ s1))%nat ->
  (length (txt "FETCH NEXT in ") < length (pqsqlxx.fetch_next_ s2))%nat ->
  pqsqlxx.fetch_next_ s1 <> pqsqlxx.fetch_next_ s2
  /\ pqsqlxx.close_ s1 <> pqsqlxx.close_ s2.
Proof.
  intros H1 H2 L1 L2.
  apply pq_execute_impl_cursor in H1 as (q1 & c1 & res1 & B1 & ->).
  apply pq_execute_impl_cursor in H2 as (q2 & c2 & res2 & B2 & ->).
  apply pq_statement_names_cursor in L1 as (N1 & -> & -> & _).
  apply pq_statement_names_cursor in L2 as (N2 & -> & -> & _).
  assert (Hname : forall fuel i query q c j,
             pqsqlxx.pq_build_query false fuel i query = Some (q, c, j) ->
             c <> [] ->
             c = txt "cursor_" ++ pqsqlxx.digitsN j /\ j = ((i + 1) mod 2 ^ 64)%N).
  { intros fuel i0 query q c j0. unfold pqsqlxx.pq_build_query.
    destruct (pqsqlxx.number_while fuel 0 _) as [t|]; [|discriminate].
    destruct (query_has_results _); intros [= _ <- <-]; [auto | congruence]. }
  destruct (Hname _ _ _ _ _ _ B1 N1) as [-> Hj].
  destruct (Hname _ _ _ _ _ _ B2 N2) as [-> Hk].
  assert (Hjk : j <> k).
  { assert (Hlt : (j < 2 ^ 64)%N) by (rewrite Hj; apply N.mod_lt; discriminate).
    rewrite Hk. intros Heq.
    destruct (N.eq_dec (j + 1)%N (2 ^ 64)%N) as [E|E].
    - rewrite E, N.Div0.mod_same in Heq. rewrite Heq in E. discriminate E.
    - rewrite N.mod_small in Heq by lia. lia. }
  split; intros Heq; apply app_inv_head in Heq; apply app_inv_head in Heq;
    apply digitsN_inj in Heq; contradiction.
Qed.

Lemma X12_static_counter_witness :
  let s1 := pqsqlxx.statement_ctor true
              (Some (pqsqlxx.mk_PGresult pqsqlxx.PGRES_COMMAND_OK 0 [])) (txt "cursor_8") in
  let s2 := pqsqlxx.statement_ctor true
              (Some (pqsqlxx.mk_PGresult pqsqlxx.PGRES_COMMAND_OK 0 [])) (txt "cursor_9") in
  pqsqlxx.fetch_next_ s1 <> pqsqlxx.fetch_next_ s2
  /\ pqsqlxx.close_ s1 <> pqsqlxx.close_ s2.
Proof.
  intros s1 s2.
  apply (X12_static_counter_gives_fresh_cursor_names (fun _ => []) 1 1 7 true true
           (txt "SELECT a FROM t") (txt "SHOW TABLES") [] []
           (mk_native [] []) (mk_native [] [])
           s1 [] 8%N
           (mk_native []
              [txt "BEGIN;";
               txt "DECLARE cursor_8 SCROLL CURSOR WITH HOLD FOR SELECT a FROM t;";
               txt "COMMIT;"])
           s2 [] 9%N
           (mk_native []
              [txt "BEGIN;";
               txt "DECLARE cursor_9 SCROLL CURSOR WITH HOLD FOR SHOW TABLES;";
               txt "COMMIT;"]));
    [vm_compute; reflexivity | vm_compute; reflexivity | vm_compute; lia | vm_compute; lia].
Defined.

(** ** Reading values back (pqsqlxx.h, [next()]) *)

Lemma decode_hex_byte (c : ascii) :
  pqsqlxx.char_of_long (pqsqlxx.strtol16 (hex_byte c)) = c.
Proof. destruct c as [[] [] [] [] [] [] [] []]; vm_compute; reflexivity. Qed.

Lemma decode_hex_bytes (b : list ascii) : pqsqlxx.decode_hex (flat_map hex_byte b) = b.
Proof.
  induction b as [|c b IH]; [reflexivity|].
  cbn [flat_map]. unfold hex_byte at 1. cbn [app pqsqlxx.decode_hex].
  rewrite IH. f_equal. apply decode_hex_byte.
Qed.

Lemma pq_field_blob_hex (strtod_value : list ascii -> float) (name b : list ascii) :
  pqsqlxx.pq_field strtod_value (pqsqlxx.mk_pq_value name false 0 (blob_hex_spec b))
  = Some (field_blob b (c_text name)).
Proof.
  unfold pqsqlxx.pq_field, blob_hex_spec.
  cbn [pqsqlxx.PQgetisnull pqsqlxx.PQfformat pqsqlxx.PQgetvalue pqsqlxx.PQfname].
  change (txt "\x") with ["\"; "x"]. cbn [app negb Z.eqb length hd skipn Nat.ltb Nat.leb].
  change (Ascii.eqb "\" "\") with true. change (Ascii.eqb "x" "x") with true.
  cbn [andb]. now rewrite drop_0, decode_hex_bytes.
Qed.

(** X13.  [next()] decodes the hexadecimal form in which the server
    sends a [bytea] value: from [\x] and two lower-case hexadecimal digits
    per byte it rebuilds every blob, NUL bytes and bytes above 127
    included, under the column's name. *)
Theorem X13_bytea_hex_is_decoded (strtod_value : list ascii -> float)
    (name b : list ascii) :
  pqsqlxx.pq_field strtod_value (pqsqlxx.mk_pq_value name false 0 (blob_hex_spec b))
  = Some (field_blob b (c_text name)).
Proof. apply pq_field_blob_hex. Qed.

(** X14.  What [toString()] writes for a blob, [next()] reads back as
    that blob, provided no byte of it is below 16. *)
Theorem X14_blob_text_round_trip (fmt_double : float -> list ascii)
    (strtod_value : list ascii -> float) (b name col : list ascii) :
  Forall (fun v => (16 <= nat_of_ascii v)%nat) b ->
  pqsqlxx.pq_field strtod_value
    (pqsqlxx.mk_pq_value col false 0 (toString fmt_double (field_blob b name)))
  = Some (field_blob b (c_text col)).
Proof.
  intros Hb. rewrite (toString_blob_high_bytes fmt_double b name Hb).
  apply pq_field_blob_hex.
Qed.

Lemma X14_blob_text_round_trip_witness :
  pqsqlxx.pq_field (fun _ => 0%float)
    (pqsqlxx.mk_pq_value (txt "data") false 0
       (toString (fun _ => []) (field_blob ["255"; "016"; "a"] [])))
  = Some (field_blob ["255"; "016"; "a"] (txt "data")).
Proof.
  apply (X14_blob_text_round_trip (fun _ => []) (fun _ => 0%float) ["255"; "016"; "a"] []
           (txt "data")).
  repeat constructor; vm_compute; intros H; discriminate H.
Defined.

Lemma digit_facts (c : ascii) :
  is_digit c = true ->
  c <> NUL /\ is_space c = false /\ Ascii.eqb c "\" = false
  /\ Ascii.eqb "." c = false /\ Ascii.eqb "," c = false
  /\ c <> "-" /\ c <> "+".
Proof.
  destruct c as [[] [] [] [] [] [] [] []]; intros H; try discriminate H;
    repeat split; try reflexivity; discriminate.
Qed.

Lemma digits_value_pos_acc (d : Decimal.uint) :
  forall acc : positive,
    pqsqlxx.digits_value
      (list_ascii_of_string (DecimalString.NilEmpty.string_of_uint d)) (Zpos acc)
    = Zpos (Pos.of_uint_acc d acc).
Proof.
  induction d; intros acc; cbn [DecimalString.NilEmpty.string_of_uint
                                  list_ascii_of_string pqsqlxx.digits_value
                                  Pos.of_uint_acc];
    try reflexivity;
    change (is_digit _) with true; cbn iota;
    rewrite <- IHd; f_equal;
    match goal with
    | |- context [nat_of_ascii ?c] =>
        let v := eval vm_compute in (nat_of_ascii c) in
        change (nat_of_ascii c) with v
    end; lia.
Qed.

Lemma digits_value_of_uint (d : Decimal.uint) :
  pqsqlxx.digits_value
    (list_ascii_of_string (DecimalString.NilEmpty.string_of_uint d)) 0
  = Z.of_N (Pos.of_uint d).
Proof.
  induction d; cbn [DecimalString.NilEmpty.string_of_uint
                      list_ascii_of_string pqsqlxx.digits_value Pos.of_uint];
    try reflexivity;
    change (is_digit _) with true; cbn iota;
    match goal with
    | |- context [nat_of_ascii ?c] =>
        let v := eval vm_compute in (nat_of_ascii c) in
        change (nat_of_ascii c) with v
    end; cbn [Z.mul Z.add Z.sub Z.opp Z.pos_sub Z.of_nat Pos.of_succ_nat Pos.succ
              Z.succ_double Z.pred_double Z.double Pos.pred_double];
    [exact IHd | apply (digits_value_pos_acc d) ..].
Qed.

(** The text of an integer: a minus sign when negative, then digits that
    read back as its magnitude. *)
Lemma fmt_int64_shape (z : Z) :
  exists D : list ascii,
    fmt_int64 z = (if (z <? 0)%Z then ["-"] else []) ++ D
    /\ D <> [] /\ Forall (fun c => is_digit c = true) D
    /\ pqsqlxx.digits_value D 0 = Z.abs z.
Proof.
  assert (Hpos : forall p,
             let D := list_ascii_of_string
                        (DecimalString.NilEmpty.string_of_uint (Pos.to_uint p)) in
             txt (DecimalString.NilZero.string_of_uint (Pos.to_uint p)) = D
             /\ D <> [] /\ Forall (fun c => is_digit c = true) D
             /\ pqsqlxx.digits_value D 0 = Zpos p).
  { intros p D. subst D.
    pose proof (DecimalPos.Unsigned.to_uint_nonnil p) as Hnn.
    repeat split.
    - unfold txt, DecimalString.NilZero.string_of_uint.
      destruct (Pos.to_uint p); [contradiction|reflexivity..].
    - destruct (Pos.to_uint p); [contradiction|discriminate..].
    - apply uint_digits.
    - now rewrite digits_value_of_uint, DecimalPos.Unsigned.of_to. }
  destruct z as [|p|p].
  - exists ["0"]. repeat split; [discriminate | repeat constructor].
  - destruct (Hpos p) as (E & Hne & Hd & Hv).
    exists (list_ascii_of_string
              (DecimalString.NilEmpty.string_of_uint (Pos.to_uint p))).
    repeat split; auto.
  - destruct (Hpos p) as (E & Hne & Hd & Hv).
    exists (list_ascii_of_string
              (DecimalString.NilEmpty.string_of_uint (Pos.to_uint p))).
    repeat split; auto.
    unfold fmt_int64. cbn [Z.to_int DecimalString.NilZero.string_of_int Z.ltb Z.compare].
    unfold txt in *. cbn [list_ascii_of_string app]. now rewrite E.
Qed.

Lemma digits_no_nul (D : list ascii) :
  Forall (fun c => is_digit c = true) D -> Forall (fun c => c <> NUL) D.
Proof. intros H. eapply Forall_impl; [exact H|]. intros c Hc. apply digit_facts, Hc. Qed.

Lemma has_char_digits (D : list ascii) (c : ascii) :
  (forall d, is_digit d = true -> Ascii.eqb c d = false) ->
  Forall (fun c => is_digit c = true) D ->
  existsb (Ascii.eqb c) D = false.
Proof.
  intros Hc. induction 1 as [|d D Hd _ IH]; [reflexivity|].
  cbn [existsb]. now rewrite (Hc d Hd), IH.
Qed.

(** The text of a signed run of digits, seen as a C string. *)
Lemma signed_digits_c_text (neg : bool) (D : list ascii) :
  Forall (fun c => is_digit c = true) D ->
  c_text ((if neg then ["-"] else []) ++ D) = (if neg then ["-"] else []) ++ D.
Proof.
  intros HD. apply c_text_id, Forall_app. split; [|now apply digits_no_nul].
  destruct neg; repeat constructor. discriminate.
Qed.

Lemma strtoll_signed_digits (neg : bool) (D : list ascii) :
  D <> [] -> Forall (fun c => is_digit c = true) D ->
  let v := pqsqlxx.digits_value D 0 in
  let r := if neg then (- v)%Z else v in
  pqsqlxx.strtoll ((if neg then ["-"] else []) ++ D)
  = if (pqsqlxx.LLONG_MAX <? r)%Z then pqsqlxx.LLONG_MAX
    else if (r <? pqsqlxx.LLONG_MIN)%Z then pqsqlxx.LLONG_MIN else r.
Proof.
  intros Hne HD v r. unfold pqsqlxx.strtoll.
  rewrite signed_digits_c_text by assumption.
  destruct D as [|d D]; [contradiction|].
  pose proof (Forall_inv HD) as Hd.
  pose proof (digit_facts d Hd) as (_ & Hsp & _).
  destruct neg; cbn [app pqsqlxx.skip_space].
  - change (is_space "-") with false. cbn iota. reflexivity.
  - rewrite Hsp. subst v r. clear Hsp HD Hne.
    destruct d as [[] [] [] [] [] [] [] []]; try discriminate Hd; reflexivity.
Qed.

Lemma pq_field_signed_digits (strtod_value : list ascii -> float) (name : list ascii)
    (neg : bool) (D : list ascii) :
  D <> [] -> Forall (fun c => is_digit c = true) D ->
  pqsqlxx.pq_field strtod_value
    (pqsqlxx.mk_pq_value name false 0 ((if neg then ["-"] else []) ++ D))
  = Some (field_int (pqsqlxx.strtoll ((if neg then ["-"] else []) ++ D)) (c_text name)).
Proof.
  intros Hne HD.
  assert (Hconv : pqsqlxx.strtod_converts ((if neg then ["-"] else []) ++ D) = true).
  { unfold pqsqlxx.strtod_converts. rewrite signed_digits_c_text by assumption.
    destruct D as [|d D]; [contradiction|].
    pose proof (Forall_inv HD) as Hd.
    pose proof (digit_facts d Hd) as (_ & Hsp & _).
    destruct neg; cbn [app pqsqlxx.skip_space].
    - change (is_space "-") with false. cbn iota. now rewrite Hd.
    - rewrite Hsp. clear Hsp HD.
      destruct d as [[] [] [] [] [] [] [] []]; try discriminate Hd; reflexivity. }
  assert (Hno : forall c, (forall d, is_digit d = true -> Ascii.eqb c d = false) ->
                          Ascii.eqb c "-" = false ->
                          pqsqlxx.has_char ((if neg then ["-"] else []) ++ D) c = false).
  { intros c Hc Hcm. unfold pqsqlxx.has_char.
    rewrite signed_digits_c_text by assumption.
    rewrite existsb_app, (has_char_digits D c Hc HD).
    destruct neg; cbn [existsb]; now rewrite ?Hcm. }
  unfold pqsqlxx.pq_field.
  cbn [pqsqlxx.PQgetisnull pqsqlxx.PQfformat pqsqlxx.PQgetvalue pqsqlxx.PQfname
       Z.eqb negb].
  rewrite Hconv, (Hno "." (fun d Hd => proj1 (proj2 (proj2 (proj2 (digit_facts d Hd))))) eq_refl),
    (Hno "," (fun d Hd => proj1 (proj2 (proj2 (proj2 (proj2 (digit_facts d Hd)))))) eq_refl).
  destruct D as [|d D]; [contradiction|].
  pose proof (digit_facts d (Forall_inv HD)) as (_ & _ & Hb & _).
  destruct neg; cbn [app].
  - change (Ascii.eqb "-" "\") with false. now rewrite andb_false_r.
  - now rewrite Hb, andb_false_r.
Qed.

(** X15.  An integer survives the trip through its text: when every
    column of the fetched tuple holds what [toString()] writes for a
    64-bit integer, [next()] returns exactly these integers, typed
    [SQL_INTEGER], under the column names. *)
Theorem X15_integers_are_read_back (strtod_value : list ascii -> float)
    (fmt_double : float -> list ascii) (s : pqsqlxx.statement) (n : Z)
    (cols : list (list ascii * Z)) :
  pqsqlxx.fetch_next_ s <> [] ->
  (0 < n)%Z ->
  Forall (fun c => (- two63 <= snd c < two63)%Z) cols ->
  pqsqlxx.next strtod_value s
    (Some (pqsqlxx.mk_pq_tuples pqsqlxx.PGRES_TUPLES_OK n
             (map (fun c => pqsqlxx.mk_pq_value (fst c) false 0
                               (toString fmt_double (field_int (snd c) [])))
                  cols)))
  = map (fun c => field_int (snd c) (c_text (fst c))) cols.
Proof.
  intros Hs Hn Hcols. unfold pqsqlxx.next.
  destruct (pqsqlxx.fetch_next_ s) as [|x xs]; [contradiction|].
  cbn [pqsqlxx.tuples_status pqsqlxx.PQntuples pqsqlxx.fields].
  apply Z.ltb_lt in Hn. rewrite Hn. clear Hn Hs.
  induction Hcols as [|[name z] cols Hz _ IH]; [reflexivity|].
  cbn [map omap list_omap fst snd]. cbn [snd] in Hz. rewrite IH.
  change (toString fmt_double (field_int z [])) with (fmt_int64 z).
  destruct (fmt_int64_shape z) as (D & -> & Hne & HD & Hv).
  rewrite (pq_field_signed_digits strtod_value name _ D Hne HD).
  rewrite (strtoll_signed_digits _ D Hne HD). cbv zeta. rewrite Hv.
  unfold pqsqlxx.LLONG_MAX, pqsqlxx.LLONG_MIN.
  do 2 f_equal.
  destruct (Z.ltb_spec z 0);
    repeat match goal with |- context [(?a <? ?b)%Z] => destruct (Z.ltb_spec a b) end;
    lia.
Qed.

Lemma X15_integers_witness :
  pqsqlxx.next (fun _ => 0%float)
    (pqsqlxx.statement_ctor true
       (Some (pqsqlxx.mk_PGresult pqsqlxx.PGRES_COMMAND_OK 0 [])) (txt "cursor_1"))
    (Some (pqsqlxx.mk_pq_tuples pqsqlxx.PGRES_TUPLES_OK 1
             (map (fun c => pqsqlxx.mk_pq_value (fst c) false 0
                               (toString (fun _ => []) (field_int (snd c) [])))
                  [(txt "id", 42%Z); (txt "delta", (-9223372036854775808)%Z)])))
  = [field_int 42 (txt "id"); field_int (-9223372036854775808) (txt "delta")].
Proof.
  apply (X15_integers_are_read_back (fun _ => 0%float) (fun _ => [])
           (pqsqlxx.statement_ctor true
              (Some (pqsqlxx.mk_PGresult pqsqlxx.PGRES_COMMAND_OK 0 [])) (txt "cursor_1"))
           1 [(txt "id", 42%Z); (txt "delta", (-9223372036854775808)%Z)]).
  - discriminate.
  - lia.
  - repeat constructor; vm_compute; intros H; discriminate H.
Defined.

Lemma digits_value_leading_zeros (k : nat) (D : list ascii) :
  pqsqlxx.digits_value (repeat "0" k ++ D) 0 = pqsqlxx.digits_value D 0.
Proof. induction k as [|k IH]; [reflexivity | exact IH]. Qed.

(** X16.  [next()] types a value by its look, not by its column: a value
    made of decimal digits alone, as a text column may well hold, comes
    back as an [SQL_INTEGER], so its leading zeros are lost, and a number
    too large for 64 bits comes back as the largest one. *)
Theorem X16_digit_text_comes_back_as_integer (strtod_value : list ascii -> float)
    (fmt_double : float -> list ascii) (name : list ascii) (k : nat) (z : Z) :
  (0 <= z)%Z ->
  pqsqlxx.pq_field strtod_value
    (pqsqlxx.mk_pq_value name false 0
       (repeat "0" k ++ toString fmt_double (field_int z [])))
  = Some (field_int (Z.min z (two63 - 1)) (c_text name)).
Proof.
  intros Hz. change (toString fmt_double (field_int z [])) with (fmt_int64 z).
  destruct (fmt_int64_shape z) as (D & -> & Hne & HD & Hv).
  destruct (Z.ltb_spec z 0) as [|_]; [lia|]. cbn [app].
  assert (Hne' : repeat "0" k ++ D <> []).
  { intros H. apply app_eq_nil in H as [_ H]. contradiction. }
  assert (HD' : Forall (fun c => is_digit c = true) (repeat "0" k ++ D)).
  { apply Forall_app. split; [|assumption]. clear. induction k; constructor; auto. }
  pose proof (pq_field_signed_digits strtod_value name false _ Hne' HD') as Hf.
  pose proof (strtoll_signed_digits false _ Hne' HD') as Hl.
  cbv zeta in Hl. cbn [app] in Hf, Hl. rewrite Hf, Hl.
  rewrite digits_value_leading_zeros, Hv.
  unfold pqsqlxx.LLONG_MAX, pqsqlxx.LLONG_MIN. do 2 f_equal.
  repeat match goal with |- context [(?a <? ?b)%Z] => destruct (Z.ltb_spec a b) end;
    unfold two63 in *; lia.
Qed.

Lemma X16_digit_text_witness :
  pqsqlxx.pq_field (fun _ => 0%float)
    (pqsqlxx.mk_pq_value (txt "zip") false 0 (txt "00501"))
  = Some (field_int 501 (txt "zip")).
Proof.
  apply (X16_digit_text_comes_back_as_integer (fun _ => 0%float) (fun _ => [])
           (txt "zip") 2 501).
  lia.
Defined.

(** ** The parameters sent (pqsqlxx.h, [execute_impl]) *)

Lemma param_values_spec (fmt_double : float -> list ascii) (binds : list field_type) :
  forall pre : list (list ascii),
    pqsqlxx.param_values binds
      (pre ++ fst (pqsqlxx.param_texts fmt_double binds)) (length pre)
    = map (fun b => if pqsqlxx.is_typed b then Some (toString fmt_double b) else None)
        binds.
Proof.
  induction binds as [|b binds IH]; intros pre; [reflexivity|].
  cbn [pqsqlxx.param_values pqsqlxx.param_texts map].
  destruct (pqsqlxx.param_texts fmt_double binds) as [values lengths] eqn:E.
  cbn [fst] in IH.
  destruct (pqsqlxx.is_typed b); cbn [fst].
  - f_equal.
    + f_equal. rewrite app_nth2, Nat.sub_diag by lia. reflexivity.
    + specialize (IH (pre ++ [toString fmt_double b])).
      rewrite <- app_assoc, length_app, Nat.add_1_r in IH. exact IH.
  - f_equal. apply IH.
Qed.

(** X17.  The two loops of [execute_impl] line the parameters up with
    the bindings: the [k]-th parameter sent is the text of the [k]-th
    binding when that is an integer, a float, a text or a blob, and the
    null pointer when it is NULL or has no type, however typed and
    untyped bindings alternate. *)
Theorem X17_parameters_follow_the_bindings (fmt_double : float -> list ascii)
    (shared : bool) (fuel : nat) (i : N) (conn_ok : bool) (query : list ascii)
    (binds : list field_type) (db : pqsqlxx.PGconn) s params j db' :
  pqsqlxx.execute_impl fmt_double shared fuel i conn_ok query binds db
  = Some (s, params, j, db') ->
  params
  = map (fun b => if pqsqlxx.is_typed b then Some (toString fmt_double b) else None)
      binds.
Proof.
  unfold pqsqlxx.execute_impl.
  destruct (pqsqlxx.pq_build_query shared fuel i (c_text query)) as [[[q cursor] i']|];
    [|discriminate].
  destruct (pqsqlxx.ctor db) as [tr db1].
  destruct (pqsqlxx.PQexec db1 q) as [res db2].
  assert (Hp : match binds with
               | [] => []
               | _ :: _ =>
                   pqsqlxx.param_values binds
                     (fst (pqsqlxx.param_texts fmt_double binds)) 0
               end
               = map (fun b => if pqsqlxx.is_typed b
                               then Some (toString fmt_double b) else None) binds).
  { destruct binds as [|b binds]; [reflexivity|].
    exact (param_values_spec fmt_double (b :: binds) []). }
  rewrite Hp.
  destruct (pqsqlxx.is_command_ok res);
    [destruct (pqsqlxx.commit tr db2) as [[? ?] ?]|];
    intros [= _ <- _ _]; reflexivity.
Qed.

Lemma X17_parameters_witness :
  [Some (txt "7"); None; Some (txt "x")]
  = map (fun b => if pqsqlxx.is_typed b then Some (toString (fun _ => []) b) else None)
      [field_int 7 []; field_null []; field_text (txt "x") []].
Proof.
  apply (X17_parameters_follow_the_bindings (fun _ => []) true 4 0 true
           (txt "INSERT INTO t VALUES (?, ?, ?)")
           [field_int 7 []; field_null []; field_text (txt "x") []]
           (mk_native [] [])
           (pqsqlxx.statement_ctor true
              (Some (pqsqlxx.mk_PGresult pqsqlxx.PGRES_COMMAND_OK 0 [])) [])
           [Some (txt "7"); None; Some (txt "x")] 0%N
           (mk_native []
              [txt "BEGIN;"; txt "INSERT INTO t VALUES ($1, $2, $3)"; txt "COMMIT;"])).
  vm_compute. reflexivity.
Defined.

(** ** The transaction around a statement *)

(** X18.  The PostgreSQL driver sends the statement right after
    [BEGIN;], also when [BEGIN;] failed.  [COMMIT;] follows only when
    both were accepted; [ROLLBACK;] is sent last when [BEGIN;] was
    accepted and the statement or the [COMMIT;] was not; after a refused
    [BEGIN;] nothing follows the statement. *)
Theorem X18_postgres_statement_inside_transaction
    (fmt_double : float -> list ascii) (shared : bool) (fuel : nat) (i : N)
    (conn_ok : bool) (query : list ascii) (binds : list field_type)
    (db : pqsqlxx.PGconn) s params j db' :
  pqsqlxx.execute_impl fmt_double shared fuel i conn_ok query binds db
  = Some (s, params, j, db') ->
  let ok := Some (pqsqlxx.mk_PGresult pqsqlxx.PGRES_COMMAND_OK 0 []) in
  let began := pqsqlxx.is_command_ok (hd ok (replies db)) in
  let done := pqsqlxx.is_command_ok (hd ok (tl (replies db))) in
  let committed := pqsqlxx.is_command_ok (hd ok (tl (tl (replies db)))) in
  exists q cursor,
    pqsqlxx.pq_build_query shared fuel i (c_text query) = Some (q, cursor, j)
    /\ sent db'
       = sent db ++ txt "BEGIN;" :: q
           :: (if began
               then if done
                    then txt "COMMIT;" :: (if committed then [] else [txt "ROLLBACK;"])
                    else [txt "ROLLBACK;"]
               else []).
Proof.
  unfold pqsqlxx.execute_impl.
  destruct (pqsqlxx.pq_build_query shared fuel i (c_text query)) as [[[q cursor] i']|];
    [|discriminate].
  intros H. cbv zeta. exists q, cursor. revert H.
  unfold pqsqlxx.ctor, pqsqlxx.commit, pqsqlxx.dtor, tr_ctor, tr_begin, tr_commit,
    tr_dtor, tr_rollback, pqsqlxx.run, pqsqlxx.PQexec, native_call.
  set (ok := Some (pqsqlxx.mk_PGresult pqsqlxx.PGRES_COMMAND_OK 0 [])).
  cbn [replies sent finished_ fst snd negb].
  set (began := pqsqlxx.is_command_ok (hd ok (replies db))).
  set (done := pqsqlxx.is_command_ok (hd ok (tl (replies db)))).
  destruct began, done; cbn [negb finished_ replies sent snd];
    try set (committed := pqsqlxx.is_command_ok (hd ok (tl (tl (replies db)))));
    try destruct committed; cbn [negb finished_ replies sent snd];
    intros [= _ _ <- <-]; cbn [sent]; rewrite <- ?app_assoc; auto.
Qed.

Lemma X18_postgres_transaction_witness :
  exists q cursor,
    pqsqlxx.pq_build_query true 2 0 (c_text (txt "DELETE FROM t WHERE a = ?"))
    = Some (q, cursor, 0%N)
    /\ [txt "BEGIN;"; txt "DELETE FROM t WHERE a = $1"; txt "ROLLBACK;"]
       = [] ++ txt "BEGIN;" :: q :: [txt "ROLLBACK;"].
Proof.
  apply (X18_postgres_statement_inside_transaction (fun _ => []) true 2 0 true
           (txt "DELETE FROM t WHERE a = ?") [field_int 1 []]
           (mk_native
              [Some (pqsqlxx.mk_PGresult pqsqlxx.PGRES_COMMAND_OK 0 []);
               Some (pqsqlxx.mk_PGresult pqsqlxx.PGRES_FATAL_ERROR 0 [])] [])
           (pqsqlxx.statement_ctor true
              (Some (pqsqlxx.mk_PGresult pqsqlxx.PGRES_FATAL_ERROR 0 [])) [])
           [Some (txt "1")] 0%N
           (mk_native []
              [txt "BEGIN;"; txt "DELETE FROM t WHERE a = $1"; txt "ROLLBACK;"])).
  vm_compute. reflexivity.
Defined.

(** ** Binding parameters (mysqlxx.h, [do_bind]) *)

Lemma unsigned_value_bytes (u : Z) (n : nat) :
  forall s : nat,
    mysqlxx.unsigned_value
      (map (fun k => (u / 256 ^ Z.of_nat k) mod 256)%Z (seq s n))
    = ((u / 256 ^ Z.of_nat s) mod 256 ^ Z.of_nat n)%Z.
Proof.
  induction n as [|n IH]; intros s.
  - cbn [seq map mysqlxx.unsigned_value]. now rewrite Z.mod_1_r.
  - cbn [seq map mysqlxx.unsigned_value]. rewrite IH.
    rewrite !Nat2Z.inj_succ, !Z.pow_succ_r by lia.
    rewrite (Z.mul_comm 256 (256 ^ Z.of_nat s)), <- Z.div_div by lia.
    rewrite Z.rem_mul_r by lia. reflexivity.
Qed.

Lemma signed_value_low_bytes (v : Z) (w : nat) :
  (w <= 8)%nat ->
  (- (256 ^ Z.of_nat w) <= 2 * v < 256 ^ Z.of_nat w)%Z ->
  mysqlxx.signed_value (firstn w (mysqlxx.int64_bytes v)) = v.
Proof.
  intros Hw Hv. unfold mysqlxx.signed_value, mysqlxx.int64_bytes.
  rewrite firstn_map.
  replace (take w (seq 0 8)) with (seq 0 w).
  2: { do 9 (destruct w as [|w]; [reflexivity|]). lia. }
  rewrite length_map, length_seq, unsigned_value_bytes.
  change (256 ^ Z.of_nat 0)%Z with 1%Z. rewrite Z.div_1_r.
  unfold to_uint64, two64.
  assert (Hm : (0 < 256 ^ Z.of_nat w)%Z) by (apply Z.pow_pos_nonneg; lia).
  rewrite Z.mod_mod_divide.
  2: { exists (256 ^ Z.of_nat (8 - w))%Z.
       rewrite <- Z.pow_add_r, <- Nat2Z.inj_add by lia.
       replace (8 - w + w)%nat with 8%nat by lia. reflexivity. }
  set (m := (256 ^ Z.of_nat w)%Z) in *.
  assert (Hmod : (v mod m = if v <? 0 then v + m else v)%Z).
  { destruct (Z.ltb_spec v 0).
    - rewrite <- (Z_mod_plus_full v 1 m), Z.mul_1_l. apply Z.mod_small. lia.
    - apply Z.mod_small. lia. }
  rewrite Hmod.
  destruct (Z.ltb_spec v 0); destruct (Z.ltb_spec (2 * (v + m)) m);
    destruct (Z.ltb_spec (2 * v) m); lia.
Qed.

(** X19.  An integer parameter reaches the server unchanged: [do_bind]
    points the buffer at the 64-bit value and picks the narrowest type
    of [TINY], [SHORT], [LONG] and [LONGLONG] whose range holds it, and
    the bytes that the client library then reads from a little-endian
    buffer, taken as a signed integer of that width, are the value. *)
Theorem X19_bound_integer_is_read_whole (v : Z) (name : list ascii) :
  (- two63 <= v < two63)%Z ->
  mysqlxx.sent_integer (mysqlxx.to_mbind (field_int v name)) = Some v.
Proof.
  intros Hv. unfold mysqlxx.sent_integer, mysqlxx.to_mbind.
  cbn [type_ field_int int_ mysqlxx.buffer mysqlxx.buffer_type].
  f_equal. unfold mysqlxx.integer_type,
    mysqlxx.INT_MAX, mysqlxx.INT_MIN, mysqlxx.SHRT_MAX, mysqlxx.SHRT_MIN,
    mysqlxx.CHAR_MAX, mysqlxx.CHAR_MIN.
  unfold two63 in Hv.
  repeat match goal with
         | |- context [(?a <? ?b)%Z] => destruct (Z.ltb_spec a b)
         end;
    cbn [orb mysqlxx.integer_width];
    apply signed_value_low_bytes; try lia;
    match goal with
    | |- context [Z.of_nat ?w] =>
        let x := eval vm_compute in (256 ^ Z.of_nat w)%Z in
        change (256 ^ Z.of_nat w)%Z with x
    end; lia.
Qed.

Lemma X19_bound_integer_witness :
  mysqlxx.sent_integer (mysqlxx.to_mbind (field_int (-129) [])) = Some (-129)%Z
  /\ mysqlxx.buffer_type (mysqlxx.to_mbind (field_int (-129) []))
     = mysqlxx.MYSQL_TYPE_SHORT.
Proof.
  split; [|reflexivity].
  apply (X19_bound_integer_is_read_whole (-129) []). vm_compute.
  split; [intros H; discriminate H | reflexivity].
Defined.

Lemma fill_mbinds_spec (binds : list field_type) (n : nat) :
  forall i : nat,
    let g k := from_option mysqlxx.to_mbind mysqlxx.MYSQL_BIND_zero (binds !! k) in
    mysqlxx.fill_mbinds binds i n
      (map g (seq 0 i) ++ replicate n mysqlxx.MYSQL_BIND_zero)
    = map g (seq 0 (i + n)).
Proof.
  induction n as [|n IH]; intros i g.
  - cbn [replicate mysqlxx.fill_mbinds]. now rewrite app_nil_r, Nat.add_0_r.
  - cbn [replicate mysqlxx.fill_mbinds].
    assert (Hstep : forall x, x = g i ->
               map g (seq 0 i) ++ x :: replicate n mysqlxx.MYSQL_BIND_zero
               = map g (seq 0 (S i)) ++ replicate n mysqlxx.MYSQL_BIND_zero).
    { intros x ->. rewrite seq_S, map_app, <- app_assoc. reflexivity. }
    replace (i + S n)%nat with (S i + n)%nat by lia.
    destruct (binds !! i) as [bind|] eqn:E.
    + rewrite insert_app_r_alt by (rewrite length_map, length_seq; lia).
      rewrite length_map, length_seq, Nat.sub_diag. cbn [insert list_insert].
      rewrite Hstep by (subst g; cbn beta; now rewrite E).
      apply IH.
    + rewrite Hstep by (subst g; cbn beta; now rewrite E).
      apply IH.
Qed.

(** X20.  [do_bind] hands the client library one [MYSQL_BIND] per
    parameter of the prepared statement, never more and never fewer:
    parameter [k] carries binding [k]; bindings beyond the statement's
    parameters are dropped without a word, parameters beyond the bindings
    stay all-zero, and a statement without parameters is executed with
    nothing bound, whatever was given. *)
Theorem X20_one_bind_per_statement_parameter (stmt : mysqlxx.stmt_answers)
    (binds : list field_type) :
  let cnt := mysqlxx.mysql_stmt_param_count stmt in
  fst (mysqlxx.do_bind stmt binds)
  = if (cnt =? 0)%nat then None
    else Some (map (fun k => from_option mysqlxx.to_mbind mysqlxx.MYSQL_BIND_zero
                               (binds !! k))
                 (seq 0 cnt)).
Proof.
  intros cnt. unfold mysqlxx.do_bind. fold cnt.
  destruct cnt as [|n] eqn:E; [reflexivity|].
  cbn [fst Nat.eqb]. f_equal.
  exact (fill_mbinds_spec binds (S n) 0).
Qed.


(** X22.  The SQLite driver commits before the statement runs: the
    prepared statement is stepped for the first time when the statement
    object is made, which is after [COMMIT;] was sent.  In order:
    [BEGIN;], the preparation, the bindings, [COMMIT;] when all of these
    succeeded, the first step when there is a prepared statement, and
    last [ROLLBACK;] when [BEGIN;] succeeded and a later call did not. *)
Theorem X22_sqlite_commits_before_the_first_step
    (parameter_index : list ascii -> Z) (answer : sqlitexx.bind_call -> Z)
    (err : Z) (stmt : option sqlitexx.sqlite3_stmt) (query : list ascii)
    (bind : list field_type) (st : sqlitexx.sqlite3) (db : sqlitexx.traced) :
  let began := (hd sqlitexx.SQLITE_OK (sqlitexx.exec_answers db) =? sqlitexx.SQLITE_OK)%Z in
  let prepared := (err =? sqlitexx.SQLITE_OK)%Z in
  let bound := sqlitexx.do_bind parameter_index answer 1 bind in
  let done := prepared && (fst bound =? sqlitexx.SQLITE_OK)%Z in
  let committed :=
    (hd sqlitexx.SQLITE_OK (tl (sqlitexx.exec_answers db)) =? sqlitexx.SQLITE_OK)%Z in
  let '(s, st', db') :=
    sqlitexx.execute_impl parameter_index answer (err, stmt) query bind st db in
  (s, st') = sqlitexx.statement_ctor st stmt
  /\ sqlitexx.events db'
     = sqlitexx.events db
       ++ [sqlitexx.ev_exec (txt "BEGIN;"); sqlitexx.ev_prepare (c_text query)]
       ++ (if prepared then map sqlitexx.ev_bind (snd bound) else [])
       ++ (if began && done then [sqlitexx.ev_exec (txt "COMMIT;")] else [])
       ++ match stmt with Some _ => [sqlitexx.ev_step] | None => [] end
       ++ (if began && negb (done && committed)
           then [sqlitexx.ev_exec (txt "ROLLBACK;")] else []).
Proof.
  cbv zeta. unfold sqlitexx.execute_impl.
  unfold tr_ctor, tr_begin, tr_commit, tr_dtor, tr_rollback, sqlitexx.traced_run,
    sqlitexx.log.
  cbn [sqlitexx.exec_answers sqlitexx.events finished_ fst snd negb].
  destruct (sqlitexx.do_bind parameter_index answer 1 bind) as [e cs].
  destruct (sqlitexx.statement_ctor st stmt) as [s st'].
  cbn [fst snd].
  destruct (hd sqlitexx.SQLITE_OK (sqlitexx.exec_answers db) =? sqlitexx.SQLITE_OK)%Z;
    destruct (err =? sqlitexx.SQLITE_OK)%Z eqn:Eerr;
    cbn [negb finished_ sqlitexx.exec_answers sqlitexx.events fst snd andb];
    rewrite ?Eerr;
    try destruct (e =? sqlitexx.SQLITE_OK)%Z;
    cbn [negb finished_ sqlitexx.exec_answers sqlitexx.events fst snd andb];
    try destruct (hd sqlitexx.SQLITE_OK (tl (sqlitexx.exec_answers db))
                  =? sqlitexx.SQLITE_OK)%Z;
    destruct stmt;
    cbn [negb finished_ sqlitexx.exec_answers sqlitexx.events fst snd andb app];
    rewrite <- ?app_assoc, ?app_nil_r; cbn [app]; auto.
Qed.

(** ** Binding parameters (sqlitexx.h, [do_bind]) *)

Lemma sqlite_do_bind_spec (parameter_index : list ascii -> Z)
    (answer : sqlitexx.bind_call -> Z) (binds : list field_type) :
  forall idx : Z,
    let all := omap id (imap (fun k b => sqlitexx.bind_call_of parameter_index
                                           (idx + Z.of_nat k) b) binds) in
    let r := sqlitexx.do_bind parameter_index answer idx binds in
    exists rest,
      all = snd r ++ rest
      /\ if (fst r =? sqlitexx.SQLITE_OK)%Z
         then rest = [] /\ Forall (fun c => answer c = sqlitexx.SQLITE_OK) (snd r)
         else exists cs c,
                snd r = cs ++ [c] /\ answer c = fst r
                /\ Forall (fun c => answer c = sqlitexx.SQLITE_OK) cs.
Proof.
  induction binds as [|b binds IH]; intros idx all r.
  - exists []. subst all r. cbn. auto.
  - subst all r. cbn [imap sqlitexx.do_bind omap list_omap].
    rewrite Z.add_0_r.
    assert (Hext : imap ((fun k b => sqlitexx.bind_call_of parameter_index
                                       (idx + Z.of_nat k) b) ∘ S) binds
                   = imap (fun k b => sqlitexx.bind_call_of parameter_index
                                        (idx + 1 + Z.of_nat k) b) binds).
    { apply imap_ext. intros k x _. unfold compose. f_equal. lia. }
    rewrite Hext. clear Hext.
    specialize (IH (idx + 1)%Z). cbv zeta in IH.
    destruct (sqlitexx.bind_call_of parameter_index idx b) as [c|]; cbn [id].
    + destruct (Z.eqb_spec (answer c) sqlitexx.SQLITE_OK) as [Hc|Hc].
      * destruct (sqlitexx.do_bind parameter_index answer (idx + 1) binds) as [e cs].
        cbn [fst snd] in *. destruct IH as (rest & Hall & Hcase).
        exists rest. rewrite Hall. split; [reflexivity|].
        destruct (e =? sqlitexx.SQLITE_OK)%Z.
        -- destruct Hcase as [-> Hcs]. split; [reflexivity|]. now constructor.
        -- destruct Hcase as (cs' & c' & -> & Hc' & Hcs').
           exists (c :: cs'), c'. repeat split; auto.
      * cbn [fst snd].
        exists (omap id (imap (fun k b => sqlitexx.bind_call_of parameter_index
                                            (idx + 1 + Z.of_nat k) b) binds)).
        split; [reflexivity|].
        destruct (Z.eqb_spec (answer c) sqlitexx.SQLITE_OK); [contradiction|].
        exists [], c. repeat split; auto.
    + exact IH.
Qed.

(** X23.  [do_bind] gives a binding without a name the position it has
    among all the bindings, counted from 1: named, NULL and typeless
    bindings before it use up a position too.  The calls made are these,
    in order, up to the first one that the library refuses; its result
    code is returned and the remaining bindings are never bound. *)
Theorem X23_sqlite_bindings_are_positional (parameter_index : list ascii -> Z)
    (answer : sqlitexx.bind_call -> Z) (binds : list field_type) :
  let all := omap id (imap (fun k b => sqlitexx.bind_call_of parameter_index
                                         (1 + Z.of_nat k) b) binds) in
  let r := sqlitexx.do_bind parameter_index answer 1 binds in
  exists rest,
    all = snd r ++ rest
    /\ if (fst r =? sqlitexx.SQLITE_OK)%Z
       then rest = [] /\ Forall (fun c => answer c = sqlitexx.SQLITE_OK) (snd r)
       else exists cs c,
              snd r = cs ++ [c] /\ answer c = fst r
              /\ Forall (fun c => answer c = sqlitexx.SQLITE_OK) cs.
Proof. exact (sqlite_do_bind_spec parameter_index answer binds 1). Qed.
